(** * Genryu Japan frontend: the Markdown pipeline, the Strapi response
      normalizer and the i18n helpers, embedded and verified.

    Sources embedded here:
    - [src/lib/markdownParser.ts]  (slug factory, renderer, heading
      extraction, reading time, excerpt),
    - [src/lib/strapiClient.ts]    (normalize, normalizeResponse, fetch
      operations),
    - [src/lib/i18n.ts]            (locales, ui tables, t, getLocaleFromUrl).

    JavaScript strings are sequences of UTF-16 code units; they are modelled
    as [list N], so that [length] is [String.prototype.length] and the
    character classes of the regular expressions are tests on code units. *)

From Stdlib Require Import ZArith NArith List Bool Lia String Ascii DecimalNat.
From stdpp Require Import gmap list.

Import ListNotations.

Set Warnings "-register-all".

(* ===================================================================== *)
(** * JavaScript strings *)
(* ===================================================================== *)

Module JsString.

Local Open Scope N_scope.

(** A string is the list of its UTF-16 code units. *)
Abbreviation jsstring := (list N).

(** ** Literals

    String literals of the sources are written as Rocq strings (UTF-8 bytes)
    and decoded to code units by [js]. *)

Fixpoint utf8_points (bs : list N) : list N :=
  match bs with
  | [] => []
  | b0 :: t0 =>
      if b0 <? 0x80 then b0 :: utf8_points t0
      else
        match t0 with
        | [] => []
        | b1 :: t1 =>
            if b0 <? 0xE0 then
              ((b0 - 0xC0) * 0x40 + (b1 - 0x80)) :: utf8_points t1
            else
              match t1 with
              | [] => []
              | b2 :: t2 =>
                  if b0 <? 0xF0 then
                    ((b0 - 0xE0) * 0x1000 + (b1 - 0x80) * 0x40 + (b2 - 0x80))
                      :: utf8_points t2
                  else
                    match t2 with
                    | [] => []
                    | b3 :: t3 =>
                        ((b0 - 0xF0) * 0x40000 + (b1 - 0x80) * 0x1000
                         + (b2 - 0x80) * 0x40 + (b3 - 0x80))
                          :: utf8_points t3
                    end
              end
        end
  end.

Definition utf16_units (cp : N) : list N :=
  if cp <? 0x10000 then [cp]
  else [0xD800 + (cp - 0x10000) / 0x400; 0xDC00 + (cp - 0x10000) mod 0x400].

Definition js (s : string) : list N :=
  flat_map utf16_units (utf8_points (map N_of_ascii (list_ascii_of_string s))).

(** ** Character classes of ECMAScript *)

(** [\s]: WhiteSpace and LineTerminator code points. *)
Definition is_space (c : N) : bool :=
  (c =? 0x09) || (c =? 0x0A) || (c =? 0x0B) || (c =? 0x0C) || (c =? 0x0D)
  || (c =? 0x20) || (c =? 0xA0) || (c =? 0x1680)
  || ((0x2000 <=? c) && (c <=? 0x200A))
  || (c =? 0x2028) || (c =? 0x2029) || (c =? 0x202F) || (c =? 0x205F)
  || (c =? 0x3000) || (c =? 0xFEFF).

(** LineTerminator: what [.] refuses and what [^], [$] look at under [m]. *)
Definition is_line_terminator (c : N) : bool :=
  (c =? 0x0A) || (c =? 0x0D) || (c =? 0x2028) || (c =? 0x2029).

(** [\w]: [A-Za-z0-9_]. *)
Definition is_word (c : N) : bool :=
  ((0x30 <=? c) && (c <=? 0x39)) || ((0x41 <=? c) && (c <=? 0x5A))
  || ((0x61 <=? c) && (c <=? 0x7A)) || (c =? 0x5F).

(** [.] without the [s] flag. *)
Definition is_dot (c : N) : bool := negb (is_line_terminator c).

(** ** String methods *)

Fixpoint trimStart (s : list N) : list N :=
  match s with
  | [] => []
  | c :: s' => if is_space c then trimStart s' else s
  end.

Definition trimEnd (s : list N) : list N := rev (trimStart (rev s)).

Definition trim (s : list N) : list N := trimEnd (trimStart s).

(** [toLowerCase]. The Unicode lower-case mapping is written out where its
    result can reach a slug: Basic Latin, U+212A KELVIN SIGN (to [k]) and
    U+0130 (to [i] followed by U+0307). Every other cased character lies
    outside the characters that a slug keeps, before and after the mapping,
    and the only caller ([slug_base]) removes it in its next step; such
    characters are left as they are. *)
Definition lower_unit (c : N) : list N :=
  if (0x41 <=? c) && (c <=? 0x5A) then [c + 0x20]
  else if c =? 0x212A then [0x6B]
  else if c =? 0x0130 then [0x69; 0x0307]
  else [c].

Definition toLowerCase (s : list N) : list N := flat_map lower_unit s.

(** [s.slice(0, e)] for an integer [e]: a negative [e] counts from the
    end. *)
Definition slice0 (s : list N) (e : Z) : list N :=
  let len := Z.of_nat (length s) in
  let stop := if (e <? 0)%Z then Z.max (len + e) 0 else Z.min e len in
  firstn (Z.to_nat stop) s.

(** [String(n)] for a natural number. *)
Fixpoint digits (d : Decimal.uint) : list N :=
  match d with
  | Decimal.Nil => []
  | Decimal.D0 d' => 0x30 :: digits d'
  | Decimal.D1 d' => 0x31 :: digits d'
  | Decimal.D2 d' => 0x32 :: digits d'
  | Decimal.D3 d' => 0x33 :: digits d'
  | Decimal.D4 d' => 0x34 :: digits d'
  | Decimal.D5 d' => 0x35 :: digits d'
  | Decimal.D6 d' => 0x36 :: digits d'
  | Decimal.D7 d' => 0x37 :: digits d'
  | Decimal.D8 d' => 0x38 :: digits d'
  | Decimal.D9 d' => 0x39 :: digits d'
  end.

Definition toString (n : nat) : list N := digits (Nat.to_uint n).

(** [a === b] on strings. *)
Definition str_eqb (a b : list N) : bool := bool_decide (a = b).

(** The conversion of a string to well-formed Unicode ([toWellFormed], the
    conversion to a USVString that [URLSearchParams] applies to every name
    and value): a surrogate code unit that is not part of a pair, a high
    surrogate followed by a low one, is replaced by U+FFFD. *)
Definition is_high_surrogate (c : N) : bool := (0xD800 <=? c) && (c <=? 0xDBFF).

Definition is_low_surrogate (c : N) : bool := (0xDC00 <=? c) && (c <=? 0xDFFF).

Fixpoint toWellFormed (s : list N) : list N :=
  match s with
  | [] => []
  | c :: s' =>
      if is_high_surrogate c then
        match s' with
        | d :: s'' =>
            if is_low_surrogate d then c :: d :: toWellFormed s''
            else 0xFFFD :: toWellFormed s'
        | [] => [0xFFFD]
        end
      else if is_low_surrogate c then 0xFFFD :: toWellFormed s'
      else c :: toWellFormed s'
  end.

End JsString.

Import JsString.

(* ===================================================================== *)
(** * Regular expressions *)
(* ===================================================================== *)

(** The fragment of ECMAScript regular expressions that the sources use,
    with the backtracking semantics of the language: alternatives are tried
    left to right, a greedy quantifier tries the longest repetition first, a
    lazy one the shortest first. Every quantifier of the sources is applied
    to a single character class. *)

Module Regex.

Inductive regex : Type :=
| Empty
| Class (p : N -> bool)            (* one code unit satisfying [p] *)
| AssertStart (multiline : bool)   (* ^ *)
| AssertEnd (multiline : bool)     (* $ *)
| Cat (r1 r2 : regex)
| Alt (r1 r2 : regex)
| Group (i : nat) (r : regex)      (* i-th capturing group *)
| Quant (greedy : bool) (lo : nat) (hi : option nat) (p : N -> bool).

(** Captured groups, most recent binding first. *)
Abbreviation captures := (list (nat * jsstring)).

Fixpoint capture (caps : captures) (i : nat) : option jsstring :=
  match caps with
  | [] => None
  | (j, s) :: caps' => if Nat.eqb i j then Some s else capture caps' i
  end.

Section Matcher.

Context {A : Type}.

(** A continuation receives the code unit just before the current position
    ([None] at the start of the input), the rest of the input and the
    captures. *)
Definition cont := option N -> jsstring -> captures -> option A.

Definition at_start (multiline : bool) (prev : option N) : bool :=
  match prev with
  | None => true
  | Some c => multiline && is_line_terminator c
  end.

Definition at_end (multiline : bool) (rest : jsstring) : bool :=
  match rest with
  | [] => true
  | c :: _ => multiline && is_line_terminator c
  end.

Definition hi_zero (hi : option nat) : bool :=
  match hi with Some 0 => true | _ => false end.

Fixpoint quant_greedy (p : N -> bool) (lo : nat) (hi : option nat)
    (prev : option N) (rest : jsstring)
    (k : option N -> jsstring -> option A) : option A :=
  let stop := if Nat.eqb lo 0 then k prev rest else None in
  if hi_zero hi then stop
  else
    match rest with
    | [] => stop
    | c :: rest' =>
        if p c then
          match quant_greedy p (Nat.pred lo) (Nat.pred <$> hi) (Some c) rest' k with
          | Some a => Some a
          | None => stop
          end
        else stop
    end.

Fixpoint quant_lazy (p : N -> bool) (lo : nat) (hi : option nat)
    (prev : option N) (rest : jsstring)
    (k : option N -> jsstring -> option A) : option A :=
  let more :=
    if hi_zero hi then None
    else
      match rest with
      | [] => None
      | c :: rest' =>
          if p c then quant_lazy p (Nat.pred lo) (Nat.pred <$> hi) (Some c) rest' k
          else None
      end in
  if Nat.eqb lo 0 then
    match k prev rest with
    | Some a => Some a
    | None => more
    end
  else more.

Fixpoint rmatch (r : regex) (prev : option N) (rest : jsstring)
    (caps : captures) (k : cont) : option A :=
  match r with
  | Empty => k prev rest caps
  | Class p =>
      match rest with
      | [] => None
      | c :: rest' => if p c then k (Some c) rest' caps else None
      end
  | AssertStart m => if at_start m prev then k prev rest caps else None
  | AssertEnd m => if at_end m rest then k prev rest caps else None
  | Cat r1 r2 =>
      rmatch r1 prev rest caps (fun prev' rest' caps' => rmatch r2 prev' rest' caps' k)
  | Alt r1 r2 =>
      match rmatch r1 prev rest caps k with
      | Some a => Some a
      | None => rmatch r2 prev rest caps k
      end
  | Group i r1 =>
      rmatch r1 prev rest caps
        (fun prev' rest' caps' =>
           k prev' rest' ((i, firstn (length rest - length rest') rest) :: caps'))
  | Quant greedy lo hi p =>
      (if greedy then quant_greedy else quant_lazy) p lo hi prev rest
        (fun prev' rest' => k prev' rest' caps)
  end.

End Matcher.

(** One match attempt at the current position (a sticky match): the number
    of code units matched and the captures. *)
Definition exec (r : regex) (prev : option N) (rest : jsstring)
    : option (nat * captures) :=
  rmatch r prev rest []
    (fun _ rest' caps => Some ((length rest - length rest')%nat, caps)).

(** Replacement patterns: literal text and [$n]. An unset group expands to
    the empty string. *)
Inductive repl_item : Type :=
| RLit (s : jsstring)
| RGroup (i : nat).

Definition expand (tpl : list repl_item) (caps : captures) : jsstring :=
  flat_map (fun it =>
              match it with
              | RLit s => s
              | RGroup i => default [] (capture caps i)
              end) tpl.

(** [s.replace(r, tpl)] for a regular expression with the [g] flag. The
    input is scanned from left to right; [skip] counts the code units of
    the current match that are still to be passed over. After an empty
    match the scan moves on by one code unit, which is copied. *)
Fixpoint replace_loop (r : regex) (tpl : list repl_item)
    (prev : option N) (s : jsstring) (skip : nat) : jsstring :=
  match s with
  | [] =>
      match skip with
      | 0 =>
          match exec r prev [] with
          | Some (_, caps) => expand tpl caps
          | None => []
          end
      | S _ => []
      end
  | c :: s' =>
      match skip with
      | S n => replace_loop r tpl (Some c) s' n
      | 0 =>
          match exec r prev s with
          | Some (0, caps) => expand tpl caps ++ c :: replace_loop r tpl (Some c) s' 0
          | Some (S n, caps) => expand tpl caps ++ replace_loop r tpl (Some c) s' n
          | None => c :: replace_loop r tpl (Some c) s' 0
          end
      end
  end.

Definition replace_all (r : regex) (tpl : list repl_item) (s : jsstring) : jsstring :=
  replace_loop r tpl None s 0.

(** The loop [while ((match = r.exec(s)) !== null)] for a regular expression
    with the [g] flag: the captures of the successive matches. The loop of
    the source would not advance after an empty match; the scan here moves
    on by one code unit. The heading pattern has no empty match
    ([headingRegex_consumes]). *)
Fixpoint exec_loop (r : regex) (prev : option N) (s : jsstring) (skip : nat)
    : list captures :=
  match s with
  | [] =>
      match skip with
      | 0 =>
          match exec r prev [] with
          | Some (_, caps) => [caps]
          | None => []
          end
      | S _ => []
      end
  | c :: s' =>
      match skip with
      | S n => exec_loop r (Some c) s' n
      | 0 =>
          match exec r prev s with
          | Some (0, caps) => caps :: exec_loop r (Some c) s' 0
          | Some (S n, caps) => caps :: exec_loop r (Some c) s' n
          | None => exec_loop r (Some c) s' 0
          end
      end
  end.

Definition exec_all (r : regex) (s : jsstring) : list captures :=
  exec_loop r None s 0.

(** [s.split(r)] for a regular expression without capturing groups and
    without limit. [piece] holds, in reverse, the code units since the end
    of the last separator. A match that ends where the last separator ended
    is ignored. *)
Fixpoint split_loop (r : regex) (prev : option N) (s : jsstring) (skip : nat)
    (piece : jsstring) : list jsstring :=
  match s with
  | [] => [rev piece]
  | c :: s' =>
      match skip with
      | S n => split_loop r (Some c) s' n []
      | 0 =>
          match exec r prev s with
          | Some (0, _) =>
              match piece with
              | [] => split_loop r (Some c) s' 0 [c]
              | _ :: _ => rev piece :: split_loop r (Some c) s' 0 [c]
              end
          | Some (S n, _) => rev piece :: split_loop r (Some c) s' n []
          | None => split_loop r (Some c) s' 0 (c :: piece)
          end
      end
  end.

Definition split (r : regex) (s : jsstring) : list jsstring :=
  match s with
  | [] => match exec r None [] with Some _ => [] | None => [[]] end
  | _ :: _ => split_loop r None s 0 []
  end.

(** A lower bound on the length of any match. *)
Fixpoint min_length (r : regex) : nat :=
  match r with
  | Empty | AssertStart _ | AssertEnd _ => 0
  | Class _ => 1
  | Cat r1 r2 => min_length r1 + min_length r2
  | Alt r1 r2 => Nat.min (min_length r1) (min_length r2)
  | Group _ r1 => min_length r1
  | Quant _ lo _ _ => lo
  end.

(** Shorthands for writing the patterns of the sources. *)
Definition chr (c : ascii) : regex := Class (N.eqb (N_of_ascii c)).
Arguments chr c%_char.
Definition plus (p : N -> bool) : regex := Quant true 1 None p.
Definition star (p : N -> bool) : regex := Quant true 0 None p.
Definition plus_lazy (p : N -> bool) : regex := Quant false 1 None p.

Fixpoint cat (rs : list regex) : regex :=
  match rs with
  | [] => Empty
  | [r] => r
  | r :: rs' => Cat r (cat rs')
  end.

End Regex.

Import Regex.

(* ===================================================================== *)
(** * Completions *)
(* ===================================================================== *)

(** A call either returns a value or throws; [try_catch] is the
    [try { ... } catch (error) { ... }] statement. *)

Inductive completion (A : Type) : Type :=
| Return (a : A)
| Throw (error : jsstring).

Arguments Return {A} a.
Arguments Throw {A} error.

Definition bind {A B : Type} (c : completion A) (f : A -> completion B)
    : completion B :=
  match c with
  | Return a => f a
  | Throw e => Throw e
  end.

Definition try_catch {A : Type} (body : completion A)
    (handler : jsstring -> completion A) : completion A :=
  match body with
  | Return a => Return a
  | Throw e => handler e
  end.

(* ===================================================================== *)
(** * src/lib/markdownParser.ts *)
(* ===================================================================== *)

Module MarkdownParser.

Local Open Scope N_scope.

(** ** createSlugFactory *)

(** [[^\w\s぀-ゟ゠-ヿ一-龯-]] *)
Definition slug_strip_class (c : N) : bool :=
  negb (is_word c || is_space c
        || ((0x3040 <=? c) && (c <=? 0x309F))
        || ((0x30A0 <=? c) && (c <=? 0x30FF))
        || ((0x4E00 <=? c) && (c <=? 0x9FAF))
        || (c =? 0x2D)).

Definition is_hyphen (c : N) : bool := c =? 0x2D.

(** [/^-|-$/] *)
Definition edge_hyphen : regex :=
  Alt (Cat (AssertStart false) (chr "-")) (Cat (chr "-") (AssertEnd false)).

(** The chain of string methods that computes [base]. *)
Definition slug_base (text : jsstring) : jsstring :=
  let s := toLowerCase (trim text) in
  let s := replace_all (Class slug_strip_class) [] s in
  let s := replace_all (plus is_space) [RLit (js "-")] s in
  let s := replace_all (plus is_hyphen) [RLit (js "-")] s in
  let s := replace_all edge_hyphen [] s in
  slice0 s 50.

(** [base || 'section'] *)
Definition slug_of (text : jsstring) : jsstring :=
  match slug_base text with
  | [] => js "section"
  | base => base
  end.

(** The closure returned by [createSlugFactory], with its registry [seen]
    passed explicitly: the id and the updated registry. *)
Definition slugify (seen : gmap (list N) nat) (text : jsstring)
    : jsstring * gmap (list N) nat :=
  let slug := slug_of text in
  let count := default 0%nat (seen !! slug) in
  let seen' := <[slug := (count + 1)%nat]> seen in
  (if Nat.eqb count 0 then slug else slug ++ js "-" ++ toString (count + 1),
   seen').

(** ** createRenderer *)

(** The two call shapes of [renderer.heading]: a token object with optional
    [depth] and [text], or the positional [text], [level]. A lone string
    argument is the positional shape with [level] undefined. *)
Inductive heading_args : Type :=
| TokenArgs (depth : option nat) (text : option jsstring)
| LegacyArgs (text : option jsstring) (level : option nat).

Definition heading_html (level : nat) (id text : jsstring) : jsstring :=
  js "<h" ++ toString level ++ js " id=" ++ [0x22] ++ id ++ [0x22] ++ js ">"
  ++ text ++ js "</h" ++ toString level ++ js ">".

Definition heading (seen : gmap (list N) nat) (args : heading_args)
    : jsstring * gmap (list N) nat :=
  match args with
  | TokenArgs depth text =>
      let level := default 2%nat depth in
      let text := default [] text in
      let '(id, seen') := slugify seen text in
      (heading_html level id text, seen')
  | LegacyArgs text level =>
      let safeLevel := default 2%nat level in
      let safeText := default [] text in
      let '(id, seen') := slugify seen safeText in
      (heading_html safeLevel id safeText, seen')
  end.

(** The renderer object is created once, when the module is loaded, and
    keeps its registry from one document to the next: rendering the heading
    tokens of a document threads the registry through [heading]. *)
Fixpoint render_headings (seen : gmap (list N) nat) (tokens : list heading_args)
    : list jsstring * gmap (list N) nat :=
  match tokens with
  | [] => ([], seen)
  | tok :: tokens' =>
      let '(html, seen') := heading seen tok in
      let '(htmls, seen'') := render_headings seen' tokens' in
      (html :: htmls, seen'')
  end.

(** ** parseMarkdown *)

(** The Markdown engine is a third-party library: [marked.parse], when the
    installed version has it, and the callable [marked] itself. *)
Record Marked : Type := {
  marked_parse : option (jsstring -> completion jsstring);
  marked_call : jsstring -> completion jsstring;
}.

(** [console.error] writes a diagnostic and does not change the result. *)
Definition parseMarkdown (marked : Marked) (markdown : jsstring)
    : completion jsstring :=
  match markdown with
  | [] => Return []
  | _ :: _ =>
      try_catch
        (bind (match marked_parse marked with
               | Some parse => parse markdown
               | None => marked_call marked markdown
               end)
           (fun html => Return html))
        (fun error => Return markdown)
  end.

(** ** extractHeadings *)

Record Heading : Type := {
  level : nat;
  text : jsstring;
  id : jsstring;
}.

(** [/^(#{1,3})\s+(.+)$/gm] *)
Definition headingRegex : regex :=
  cat [AssertStart true;
       Group 1 (Quant true 1 (Some 3%nat) (N.eqb 0x23));
       plus is_space;
       Group 2 (plus is_dot);
       AssertEnd true].

(** [/\[(.+?)\]\(.+?\)/g] *)
Definition link_re : regex :=
  cat [chr "["; Group 1 (plus_lazy is_dot); chr "]";
       chr "("; plus_lazy is_dot; chr ")"].

(** [/`(.+?)`/g] *)
Definition code_re : regex :=
  cat [chr "`"; Group 1 (plus_lazy is_dot); chr "`"].

(** [/\*\*(.+?)\*\*/g] *)
Definition bold_re : regex :=
  cat [chr "*"; chr "*"; Group 1 (plus_lazy is_dot); chr "*"; chr "*"].

(** [/\*(.+?)\*/g] *)
Definition italic_re : regex :=
  cat [chr "*"; Group 1 (plus_lazy is_dot); chr "*"].

(** [/<[^>]*>/g] *)
Definition tag_re : regex :=
  cat [chr "<"; star (fun c => negb (c =? 0x3E)); chr ">"].

Definition group (m : captures) (i : nat) : jsstring := default [] (capture m i).

Definition heading_text (rawText : jsstring) : jsstring :=
  let s := replace_all link_re [RGroup 1] rawText in
  let s := replace_all code_re [RGroup 1] s in
  let s := replace_all bold_re [RGroup 1] s in
  let s := replace_all italic_re [RGroup 1] s in
  let s := replace_all tag_re [] s in
  trim s.

(** The body of the [while] loop, over the successive matches. *)
Fixpoint collect_headings (seen : gmap (list N) nat) (matches : list captures)
    : list Heading :=
  match matches with
  | [] => []
  | m :: matches' =>
      let level := length (group m 1) in
      let rawText := trim (group m 2) in
      let text := heading_text rawText in
      let '(id, seen') := slugify seen text in
      {| level := level; text := text; id := id |}
        :: collect_headings seen' matches'
  end.

Definition extractHeadings (markdown : jsstring) : list Heading :=
  match markdown with
  | [] => []
  | _ :: _ => collect_headings ∅ (exec_all headingRegex markdown)
  end.

(** ** calculateReadingTime *)

(** [Math.ceil(n / d)] for a count [n] and a positive constant [d]; the
    quotient of two such integers is rounded exactly. *)
Definition ceil_div (n d : nat) : nat := ((n + (d - 1)) / d)%nat.

Definition calculateReadingTime (content locale : jsstring) : nat :=
  match content with
  | [] => 0%nat
  | _ :: _ =>
      if str_eqb locale (js "ja") then
        let chars := length (replace_all (plus is_space) [] content) in
        ceil_div chars 400
      else
        let words :=
          length (filter (fun w => w <> []) (split (plus is_space) (trim content))) in
        ceil_div words 200
  end.

(** ** generateExcerpt *)

(** [/#+\s/g] *)
Definition hashes_re : regex := Cat (plus (N.eqb 0x23)) (Class is_space).

Definition plain_text (content : jsstring) : jsstring :=
  let s := replace_all hashes_re [] content in
  let s := replace_all bold_re [RGroup 1] s in
  let s := replace_all italic_re [RGroup 1] s in
  let s := replace_all link_re [RGroup 1] s in
  let s := replace_all code_re [RGroup 1] s in
  let s := replace_all tag_re [] s in
  let s := replace_all (plus (N.eqb 0x0A)) [RLit (js " ")] s in
  let s := replace_all (plus is_space) [RLit (js " ")] s in
  trim s.

(** [maxLength] is an integer; the default of the source is 160. *)
Definition generateExcerpt (content : jsstring) (maxLength : Z) : jsstring :=
  match content with
  | [] => []
  | _ :: _ =>
      let plainText := plain_text content in
      if (Z.of_nat (length plainText) <=? maxLength)%Z then plainText
      else trimEnd (slice0 plainText maxLength) ++ js "..."
  end.

Definition generateExcerpt_default (content : jsstring) : jsstring :=
  generateExcerpt content 160.

End MarkdownParser.

Import MarkdownParser.

(* ===================================================================== *)
(** * src/lib/strapiClient.ts *)
(* ===================================================================== *)

Module StrapiClient.

(** ** Values

    The values that [res.json()] produces and that [normalize] builds. An
    object is the list of its own properties in insertion order (the
    engine lists integer-like keys first; nothing below depends on the
    order). JSON numbers are kept as integers: [normalize] only asks of a
    number whether it is zero. *)
Inductive value : Type :=
| VUndefined
| VNull
| VBool (b : bool)
| VNum (n : Z)
| VStr (s : jsstring)
| VArr (items : list value)
| VObj (props : list (jsstring * value)).

(** [!!v] *)
Definition truthy (v : value) : bool :=
  match v with
  | VUndefined | VNull => false
  | VBool b => b
  | VNum n => negb (n =? 0)%Z
  | VStr s => match s with [] => false | _ :: _ => true end
  | VArr _ | VObj _ => true
  end.

(** [typeof v === 'object'] *)
Definition is_object (v : value) : bool :=
  match v with
  | VNull | VArr _ | VObj _ => true
  | _ => false
  end.

(** [v ?? d] *)
Definition nullish (v d : value) : value :=
  match v with
  | VUndefined | VNull => d
  | _ => v
  end.

Fixpoint lookup_prop (props : list (jsstring * value)) (key : jsstring)
    : option value :=
  match props with
  | [] => None
  | (k, v) :: props' => if str_eqb key k then Some v else lookup_prop props' key
  end.

(** The array index that a property key denotes, below [n]. *)
Definition index_of_key (key : jsstring) (n : nat) : option nat :=
  List.find (fun i => str_eqb key (toString i)) (seq 0 n).

(** [key in v], for an object or an array [v]. The source asks for the
    keys [id], [attributes] and [data] only; none of them is inherited from
    a prototype, so the own properties decide. *)
Definition has_prop (v : value) (key : jsstring) : bool :=
  match v with
  | VObj props => bool_decide (is_Some (lookup_prop props key))
  | VArr items =>
      str_eqb key (js "length") || bool_decide (is_Some (index_of_key key (length items)))
  | _ => false
  end.

(** [v[key]], with [undefined] for a property that is not there. *)
Definition get_prop (v : value) (key : jsstring) : value :=
  match v with
  | VObj props => default VUndefined (lookup_prop props key)
  | VArr items =>
      if str_eqb key (js "length") then VNum (Z.of_nat (length items))
      else default VUndefined (i ← index_of_key key (length items); items !! i)
  | VStr s =>
      if str_eqb key (js "length") then VNum (Z.of_nat (length s))
      else default VUndefined (i ← index_of_key key (length s); c ← s !! i; Some (VStr [c]))
  | _ => VUndefined
  end.

(** [obj[key] = v] on the property list of an object. *)
Fixpoint set_prop (props : list (jsstring * value)) (key : jsstring) (v : value)
    : list (jsstring * value) :=
  match props with
  | [] => [(key, v)]
  | (k, x) :: props' =>
      if str_eqb key k then (k, v) :: props' else (k, x) :: set_prop props' key v
  end.

(** The own enumerable properties that [{...v}] copies. *)
Definition own_entries (v : value) : list (jsstring * value) :=
  match v with
  | VObj props => props
  | VArr items => imap (fun i x => (toString i, x)) items
  | VStr s => imap (fun i c => (toString i, VStr [c])) s
  | _ => []
  end.

(** [{ ...props, ...v }] *)
Definition spread_into (props : list (jsstring * value)) (v : value)
    : list (jsstring * value) :=
  fold_left (fun acc kv => set_prop acc kv.1 kv.2) (own_entries v) props.

(** ** normalize *)

(** [value && typeof value === 'object' && 'data' in value] *)
Definition is_relation (value : value) : bool :=
  truthy value && is_object value && has_prop value (js "data").

(** [typeof entity === 'object' && 'id' in entity && 'attributes' in entity] *)
Definition is_entity (entity : value) : bool :=
  is_object entity && has_prop entity (js "id") && has_prop entity (js "attributes").

(** [{ id, ...(attributes ?? {}) }] *)
Definition merged (entity : value) : list (jsstring * value) :=
  let id := get_prop entity (js "id") in
  let attributes := get_prop entity (js "attributes") in
  spread_into [(js "id", id)] (nullish attributes (VObj [])).

(** One pass of the [for (const key of Object.keys(normalized))] loop. *)
Definition normalize_key (rec : value -> value)
    (normalized : list (jsstring * value)) (key : jsstring)
    : list (jsstring * value) :=
  let value := get_prop (VObj normalized) key in
  if is_relation value then
    let rel := get_prop value (js "data") in
    match rel with
    | VNull => set_prop normalized key VNull
    | VArr items => set_prop normalized key (VArr (map rec items))
    | _ => set_prop normalized key (rec rel)
    end
  else normalized.

(** What the loop leaves in a property whose value was [x]
    ([normalize_key_map]). *)
Definition resolved (rec : value -> value) (x : value) : value :=
  if is_relation x then
    match get_prop x (js "data") with
    | VNull => VNull
    | VArr items => VArr (map rec items)
    | rel => rec rel
    end
  else x.

(** The body of [normalize], with [rec] for its recursive calls. *)
Definition normalize_body (rec : value -> value) (entity : value) : value :=
  if negb (truthy entity) then VNull
  else if is_entity entity then
    let normalized := merged entity in
    VObj (fold_left (normalize_key rec) (map fst normalized) normalized)
  else entity.

Fixpoint normalize_fuel (fuel : nat) (entity : value) : value :=
  match fuel with
  | 0 => VUndefined
  | S fuel' => normalize_body (normalize_fuel fuel') entity
  end.

(** The number of arrays and objects in a value. *)
Fixpoint size (v : value) : nat :=
  match v with
  | VArr items =>
      S ((fix sizes (l : list value) : nat :=
            match l with
            | [] => 0
            | x :: l' => size x + sizes l'
            end) items)
  | VObj props =>
      S ((fix sizes (l : list (jsstring * value)) : nat :=
            match l with
            | [] => 0
            | (_, x) :: l' => size x + sizes l'
            end) props)
  | _ => 0
  end.

(** [normalize]: the recursion of the source descends into the value, so
    [size entity] unfoldings are enough ([normalize_unfold] is the equation
    of the source, [normalize_fuel_enough] that more fuel changes
    nothing). *)
Definition normalize (entity : value) : value :=
  normalize_fuel (S (size entity)) entity.

(** ** normalizeResponse *)

Record StrapiResponse (T : Type) : Type := {
  data : T;
  meta : value;
}.

Arguments data {T} _.
Arguments meta {T} _.

(** [response?.key] *)
Definition get_opt (response : value) (key : jsstring) : value :=
  match response with
  | VUndefined | VNull => VUndefined
  | _ => get_prop response key
  end.

Definition normalizeResponse (response : value) : StrapiResponse value :=
  let data := get_opt response (js "data") in
  {| data := match data with
             | VArr items => VArr (map normalize items)
             | _ => normalize data
             end;
     meta := get_opt response (js "meta") |}.

(** ** The HTTP transport *)

(** A request: the resource path under [STRAPI_URL] and the query
    parameters that the [URLSearchParams] object holds, in the order they
    are appended. *)
Record request : Type := {
  path : jsstring;
  params : list (jsstring * jsstring);
}.

(** [new URLSearchParams(init)] followed by [append(name, value)] calls:
    every name and value is converted to well-formed Unicode when it
    enters the list. *)
Definition URLSearchParams (entries : list (jsstring * jsstring))
    : list (jsstring * jsstring) :=
  map (fun entry => (toWellFormed (fst entry), toWellFormed (snd entry))) entries.

(** What [await fetch(url)] gives: a rejection (transport failure) or a
    response with its [ok] flag, its status and the outcome of
    [await res.json()]. *)
Record response : Type := {
  ok : bool;
  status : nat;
  json : completion value;
}.

Abbreviation transport := (request -> completion response).

(** [String(v)] *)
Definition Z_toString (n : Z) : jsstring :=
  match n with
  | Zneg p => js "-" ++ toString (Pos.to_nat p)
  | _ => toString (Z.to_nat n)
  end.

Fixpoint String_ (v : value) : jsstring :=
  match v with
  | VUndefined => js "undefined"
  | VNull => js "null"
  | VBool true => js "true"
  | VBool false => js "false"
  | VNum n => Z_toString n
  | VStr s => s
  | VArr items =>
      (fix join (l : list value) : jsstring :=
         match l with
         | [] => []
         | [x] => match x with VUndefined | VNull => [] | _ => String_ x end
         | x :: l' =>
             match x with VUndefined | VNull => [] | _ => String_ x end
             ++ js "," ++ join l'
         end) items
  | VObj _ => js "[object Object]"
  end.

(** The body of [Object.entries(filters).forEach(...)]. *)
Definition filter_param (entry : jsstring * value) : list (jsstring * jsstring) :=
  let '(key, value) := entry in
  match value with
  | VUndefined | VNull => []
  | _ =>
      if str_eqb key (js "category.slug") then
        [(js "filters[category][slug][$eq]", String_ value)]
      else
        match value with
        | VBool b =>
            [(js "filters[" ++ key ++ js "][$eq]", if b then js "true" else js "false")]
        | _ => [(js "filters[" ++ key ++ js "][$eq]", String_ value)]
        end
  end.

(** [Array.isArray(d) ? d : d ? [d] : []] *)
Definition as_array (d : value) : list value :=
  match d with
  | VArr items => items
  | _ => if truthy d then [d] else []
  end.

(** ** fetchArticles *)

Definition articles_request (locale : jsstring) (filters : list (jsstring * value))
    (sort : jsstring) (pageSize : nat) : request :=
  {| path := js "/api/articles";
     params :=
       URLSearchParams
         ([(js "locale", locale); (js "sort", sort)]
          ++ [(js "pagination[pageSize]", toString pageSize)]
          ++ [(js "populate[coverImage]", js "true");
              (js "populate[heroImage]", js "true");
              (js "populate[category]", js "true")]
          ++ flat_map filter_param filters) |}.

Definition fetchArticles (fetch : transport) (locale : jsstring)
    (filters : list (jsstring * value)) (sort : jsstring) (pageSize : nat)
    : completion (StrapiResponse (list value)) :=
  let req := articles_request locale filters sort pageSize in
  try_catch
    (bind (fetch req) (fun res =>
     if negb (ok res) then Throw (js "API error: " ++ toString (status res))
     else
       bind (json res) (fun json =>
       let normalized := normalizeResponse json in
       let dataArray := as_array (data normalized) in
       Return {| data := dataArray; meta := meta normalized |})))
    (fun error => Return {| data := []; meta := VObj [] |}).

(** The defaults of the parameters: [locale = 'en'], [filters = {}],
    [sort = 'publishedAt:desc'], [pageSize = 50]. *)
Definition fetchArticles_default (fetch : transport) :=
  fetchArticles fetch (js "en") [] (js "publishedAt:desc") 50.


(** ** fetchArticle *)

Definition article_request (slug locale : jsstring) : request :=
  {| path := js "/api/articles";
     params :=
       URLSearchParams
         ([(js "locale", locale)]
          ++ [(js "filters[slug][$eq]", slug)]
          ++ [(js "populate[coverImage]", js "true");
              (js "populate[heroImage]", js "true");
              (js "populate[category]", js "true")]
          ++ [(js "pagination[pageSize]", js "1")]) |}.

Definition fetchArticle (fetch : transport) (slug locale : jsstring)
    : completion value :=
  let req := article_request slug locale in
  try_catch
    (bind (fetch req) (fun res =>
     if negb (ok res) then Throw (js "Article not found: " ++ toString (status res))
     else
       bind (json res) (fun json =>
       let normalized := normalizeResponse json in
       let items := as_array (data normalized) in
       Return (nullish (default VUndefined (head items)) VNull))))
    (fun error => Return VNull).


(** ** fetchCategories *)

Definition categories_request (locale : jsstring) : request :=
  {| path := js "/api/categories";
     params :=
       URLSearchParams
         ([(js "locale", locale); (js "sort", js "order:asc")]
          ++ [(js "pagination[pageSize]", js "100")]) |}.

(** The function declares no result type and returns one of two object
    literals: [{ data: items, meta: normalized.meta }] on success and
    [{ data: [] }], an object without a [meta] property, on failure. The
    result is the object itself. *)
Definition fetchCategories (fetch : transport) (locale : jsstring)
    : completion value :=
  let req := categories_request locale in
  try_catch
    (bind (fetch req) (fun res =>
     if negb (ok res) then Throw (js "Failed to fetch categories")
     else
       bind (json res) (fun json =>
       let normalized := normalizeResponse json in
       let items := as_array (data normalized) in
       Return (VObj [(js "data", VArr items); (js "meta", meta normalized)]))))
    (fun error => Return (VObj [(js "data", VArr [])])).


End StrapiClient.

Import StrapiClient.

(* ===================================================================== *)
(** * src/lib/i18n.ts *)
(* ===================================================================== *)

Module I18n.

Definition locales : list jsstring :=
  map js ["en"; "ja"; "es"; "fr"; "th"; "id"; "zh"; "de"]%string.

Definition defaultLocale : jsstring := js "en".

(** A table of UI strings: an object from UI key to text. *)
Abbreviation table := (list (jsstring * jsstring)).

Definition mk_table (rows : list (string * string)) : table :=
  map (fun kv => (js kv.1, js kv.2)) rows.

Definition uiBase : table :=
  mk_table
    [
     ("site.title", "Genryu Japan");
     ("site.subtitle", "A quiet interface to deep Japanese context");
     ("site.tagline", "The Origin of Flow");
     ("nav.home", "Home");
     ("nav.culture", "Culture");
     ("nav.language", "Language");
     ("nav.food", "Food");
     ("nav.society", "Society");
     ("nav.art", "Art");
     ("nav.travel", "Travel");
     ("nav.about", "About");
     ("home.editorialPicks", "Editorial Picks");
     ("home.categoryGlimpses", "Explore by Category");
     ("home.deepDive", "Deep Dive");
     ("home.deepDiveDesc", "Long-form essays on Japanese culture, edited from a personal perspective.");
     ("home.aboutTeaser", "About Genryu Japan");
     ("home.aboutTeaserText", "Zen, Gen, Zine are not categories, but perspectives.");
     ("home.more", "More");
     ("home.comingSoon", "Coming soon...");
     ("home.learnMore", "Learn more");
     ("article.readMore", "Read more");
     ("article.readTime", "min read");
     ("article.publishedOn", "Published on");
     ("footer.philosophy", "Zen / Gen / Zine");
     ("footer.tagline", "Exploring Japan through context, not clichés.");
     ("footer.navigate", "Navigate");
     ("footer.connect", "Connect");
     ("footer.copyright", "All rights reserved");
     ("footer.privacy", "Privacy")
    ]%string.

Definition uiJa : table :=
  mk_table
    [
     ("site.title", "源流ジャパン");
     ("site.subtitle", "深い日本の文脈への静かなインターフェース");
     ("site.tagline", "The Origin of Flow");
     ("nav.home", "ホーム");
     ("nav.culture", "文化");
     ("nav.language", "言語");
     ("nav.food", "食");
     ("nav.society", "社会");
     ("nav.art", "アート");
     ("nav.travel", "旅");
     ("nav.about", "について");
     ("home.editorialPicks", "編集部のおすすめ");
     ("home.categoryGlimpses", "カテゴリから探す");
     ("home.deepDive", "Deep Dive");
     ("home.deepDiveDesc", "日本文化についての長文エッセイ、個人的視点から編集");
     ("home.aboutTeaser", "源流ジャパンについて");
     ("home.aboutTeaserText", "Zen、Gen、Zineはカテゴリではなく、視点です。");
     ("home.more", "もっと見る");
     ("home.comingSoon", "準備中...");
     ("home.learnMore", "もっと知る");
     ("article.readMore", "続きを読む");
     ("article.readTime", "分");
     ("article.publishedOn", "公開日");
     ("footer.philosophy", "Zen / Gen / Zine");
     ("footer.tagline", "日本を文脈から探る、クリシェではなく");
     ("footer.navigate", "ナビゲーション");
     ("footer.connect", "つながる");
     ("footer.copyright", "All rights reserved");
     ("footer.privacy", "プライバシー")
    ]%string.

Fixpoint get {V : Type} (obj : list (jsstring * V)) (key : jsstring) : option V :=
  match obj with
  | [] => None
  | (k, v) :: obj' => if str_eqb key k then Some v else get obj' key
  end.

(** [{ ...uiBase }]: a copy of the table. *)
Definition ui : list (jsstring * table) :=
  [(js "en", uiBase);
   (js "ja", uiJa);
   (js "es", uiBase);
   (js "fr", uiBase);
   (js "th", uiBase);
   (js "id", uiBase);
   (js "zh", uiBase);
   (js "de", uiBase)].

(** The keys of [uiBase]: the type [UiKey]. *)
Definition ui_keys : list jsstring := map fst uiBase.

(** [ui[locale]?.[key] ?? ui[defaultLocale][key]]; [None] is [undefined]. *)
Definition t (locale key : jsstring) : option jsstring :=
  match get ui locale ≫= (fun tbl => get tbl key) with
  | Some s => Some s
  | None => get ui defaultLocale ≫= (fun tbl => get tbl key)
  end.

(** [locales.includes(locale)] *)
Definition isValidLocale (locale : jsstring) : bool :=
  existsb (str_eqb locale) locales.

(** [s.split('/')] *)
Fixpoint split_slash (s : jsstring) (piece : jsstring) : list jsstring :=
  match s with
  | [] => [rev piece]
  | c :: s' =>
      if (c =? 0x2F)%N then rev piece :: split_slash s' []
      else split_slash s' (c :: piece)
  end.

(** [getLocaleFromUrl], on [url.pathname]. *)
Definition getLocaleFromUrl (pathname : jsstring) : jsstring :=
  let segments := filter (fun seg => seg <> []) (split_slash pathname []) in
  match head segments with
  | Some potentialLocale =>
      if isValidLocale potentialLocale then potentialLocale else defaultLocale
  | None => defaultLocale
  end.

End I18n.

Import I18n.

(* ===================================================================== *)
(** * src/lib/strapiClient.ts: queries and image URLs *)
(* ===================================================================== *)

Module StrapiQueries.

(** ** The convenience queries *)

Definition fetchArticleBySlug (fetch : transport) (slug locale : jsstring)
    : completion value :=
  fetchArticle fetch slug locale.

Definition fetchEditorialPicks (fetch : transport) (locale : jsstring) :=
  fetchArticles fetch locale [(js "editorialPick", VBool true)]
    (js "publishedAt:desc") 50.

Definition fetchFeaturedArticles (fetch : transport) (locale : jsstring) :=
  fetchArticles fetch locale [(js "featured", VBool true)]
    (js "publishedAt:desc") 50.

Definition fetchDeepDiveArticles (fetch : transport) (locale : jsstring) :=
  fetchArticles fetch locale [(js "deepDive", VBool true)]
    (js "publishedAt:desc") 50.

Definition fetchArticlesByCategory (fetch : transport)
    (categorySlug locale : jsstring) :=
  fetchArticles fetch locale [(js "category.slug", VStr categorySlug)]
    (js "publishedAt:desc") 50.

(** ** fetchCategoryGlimpses *)

Definition glimpse_categories : list jsstring :=
  map js ["culture"; "language"; "food"; "society"; "art"; "travel"]%string.

Record Glimpse : Type := {
  category : jsstring;
  articles : list value;
}.

(** The callback of [categories.map]: the featured articles of a category,
    the latest ones when there is no featured article, cut to two. *)
Definition category_glimpse (fetch : transport) (locale categorySlug : jsstring)
    : completion Glimpse :=
  bind (fetchArticles fetch locale
          [(js "category.slug", VStr categorySlug); (js "featured", VBool true)]
          (js "publishedAt:desc") 10)
    (fun articlesData =>
  bind (match data articlesData with
        | [] =>
            fetchArticles fetch locale
              [(js "category.slug", VStr categorySlug)]
              (js "publishedAt:desc") 10
        | _ :: _ => Return articlesData
        end)
    (fun articlesData =>
  Return {| category := categorySlug;
            articles := take 2 (data articlesData) |})).

(** [await Promise.all(ps)]: the results in the order of [ps]. The transport
    is a function of the request, so the order in which the requests are
    served does not matter; a rejection is that of the first promise that
    rejects. *)
Fixpoint promise_all {A : Type} (ps : list (completion A)) : completion (list A) :=
  match ps with
  | [] => Return []
  | p :: ps' =>
      bind p (fun a => bind (promise_all ps') (fun l => Return (a :: l)))
  end.

Definition fetchCategoryGlimpses (fetch : transport) (locale : jsstring)
    : completion (list Glimpse) :=
  promise_all (map (category_glimpse fetch locale) glimpse_categories).

(** ** STRAPI_URL *)

(** [s.replace(r, tpl)] for a regular expression without the [g] flag: the
    first match is replaced. *)
Fixpoint replace_first_loop (r : regex) (tpl : list repl_item)
    (prev : option N) (s : jsstring) : jsstring :=
  match exec r prev s with
  | Some (n, caps) => expand tpl caps ++ drop n s
  | None =>
      match s with
      | [] => []
      | c :: s' => c :: replace_first_loop r tpl (Some c) s'
      end
  end.

Definition replace_first (r : regex) (tpl : list repl_item) (s : jsstring)
    : jsstring :=
  replace_first_loop r tpl None s.

(** [(import.meta.env.PUBLIC_STRAPI_URL ?? 'http://localhost:1337')
     .replace(/\/$/, '')], for the value [env] of the environment variable
    ([None] when it is not set). *)
Definition STRAPI_URL (env : option jsstring) : jsstring :=
  replace_first (Cat (chr "/") (AssertEnd false)) []
    (default (js "http://localhost:1337") env).

(** ** getStrapiImageUrl *)

(** [s.startsWith(prefix)] *)
Definition startsWith (s prefix : jsstring) : bool :=
  bool_decide (take (length prefix) s = prefix).

Definition placeholder : jsstring := js "/images/placeholder.jpg".

(** [base] is the value of [STRAPI_URL]. The parameter is declared as an
    optional string, and [getArticleImageUrl] passes what it finds in the
    article: a truthy value that is not a string has no [startsWith]
    method, and the call throws. *)
Definition getStrapiImageUrl (base : jsstring) (path : value)
    (fallback : jsstring) : completion jsstring :=
  if negb (truthy path) then Return fallback
  else
    match path with
    | VStr p =>
        if startsWith p (js "http") then Return p else Return (base ++ p)
    | _ => Throw (js "TypeError: path.startsWith is not a function")
    end.

(** ** getArticleImageUrl *)

(** [a || b] *)
Definition or_else (a b : value) : value := if truthy a then a else b.

Definition getArticleImageUrl (base : jsstring) (article : value)
    : completion jsstring :=
  let coverUrl :=
    nullish (get_opt (get_opt article (js "coverImage")) (js "url"))
      (nullish
         (get_opt (get_opt (get_opt article (js "coverImage")) (js "attributes"))
            (js "url"))
         (get_opt
            (get_opt
               (get_opt
                  (get_opt (get_opt article (js "attributes")) (js "coverImage"))
                  (js "data"))
               (js "attributes"))
            (js "url"))) in
  let heroUrl :=
    nullish (get_opt (get_opt article (js "heroImage")) (js "url"))
      (nullish
         (get_opt (get_opt (get_opt article (js "heroImage")) (js "attributes"))
            (js "url"))
         (get_opt
            (get_opt
               (get_opt
                  (get_opt (get_opt article (js "attributes")) (js "heroImage"))
                  (js "data"))
               (js "attributes"))
            (js "url"))) in
  getStrapiImageUrl base (or_else coverUrl heroUrl) placeholder.

End StrapiQueries.

Import StrapiQueries.

(* ===================================================================== *)
(** * Notions of the specification and sample inputs *)
(* ===================================================================== *)

(** ** Regular expressions *)

(** The length of the longest prefix of [s] whose code units satisfy [p]. *)
Fixpoint run_length (p : N -> bool) (s : jsstring) : nat :=
  match s with
  | [] => 0
  | c :: s' => if p c then S (run_length p s') else 0
  end.

(** ** Reading time *)

(** The number of code units that are not white space. *)
Definition stripped_length (content : jsstring) : nat :=
  length (List.filter (fun c => negb (is_space c)) content).

(** The number of words: maximal runs of code units that are not white
    space. [in_word] tells whether the code unit before [s] belongs to a
    word. *)
Fixpoint count_words (in_word : bool) (s : jsstring) : nat :=
  match s with
  | [] => 0
  | c :: s' =>
      if is_space c then count_words false s'
      else (if in_word then 0 else 1) + count_words true s'
  end.

Definition word_count (content : jsstring) : nat := count_words false content.

(** [r] is [n / d] rounded up. *)
Definition rounded_up (n d r : nat) : Prop := n <= d * r < n + d.

(** The number of pieces that [filter(Boolean)] keeps. *)
Definition nonempty_pieces (l : list jsstring) : nat :=
  length (filter (fun w : jsstring => w <> []) l).

(** ** Heading ids *)

(** The id that the registry rule gives to a base slug seen [earlier] times
    before: the base slug itself the first time, the base slug with [-N]
    for the N-th occurrence after that. *)
Definition deduplicated (slug : jsstring) (earlier : nat) : jsstring :=
  match earlier with
  | 0 => slug
  | S _ => slug ++ js "-" ++ toString (earlier + 1)
  end.

(** The number of headings of [hs] whose base slug is [slug]. *)
Fixpoint occurrences (slug : jsstring) (hs : list Heading) : nat :=
  match hs with
  | [] => 0
  | h :: hs' =>
      (if decide (slug_of (text h) = slug) then 1 else 0) + occurrences slug hs'
  end.

(** The document ["# Intro\n## Intro\n## Intro"]. *)
Definition intro_document : jsstring :=
  js "# Intro" ++ [0x0A%N] ++ js "## Intro" ++ [0x0A%N] ++ js "## Intro".

(** The document ["# Intro\n## Intro\n## Intro-2"], and its heading tokens
    as the Markdown engine hands them to the renderer. *)
Definition clash_document : jsstring :=
  js "# Intro" ++ [0x0A%N] ++ js "## Intro" ++ [0x0A%N] ++ js "## Intro-2".

Definition clash_tokens : list heading_args :=
  [TokenArgs (Some 1) (Some (js "Intro"));
   TokenArgs (Some 2) (Some (js "Intro"));
   TokenArgs (Some 2) (Some (js "Intro-2"))].

(** ** parseMarkdown *)

(** The call that [parseMarkdown] makes to the Markdown engine. *)
Definition engine_call (marked : Marked) (markdown : jsstring)
    : completion jsstring :=
  match marked_parse marked with
  | Some parse => parse markdown
  | None => marked_call marked markdown
  end.

(** An engine whose [parse] always throws. *)
Definition failing_marked : Marked :=
  {| marked_parse := Some (fun _ => Throw (js "boom"));
     marked_call := fun markdown => Return markdown |}.

(** ** Entities *)

(** An article as the CMS sends it: a media field without file, a category
    and three tags. *)
Definition article_with_tags : value :=
  VObj [(js "id", VNum 1);
        (js "attributes",
         VObj [(js "title", VStr (js "Kintsugi"));
               (js "cover", VObj [(js "data", VNull)]);
               (js "category",
                VObj [(js "data",
                       VObj [(js "id", VNum 7);
                             (js "attributes", VObj [(js "slug", VStr (js "art"))])])]);
               (js "tags",
                VObj [(js "data",
                       VArr [VObj [(js "id", VNum 3);
                                   (js "attributes", VObj [(js "name", VStr (js "a"))])];
                             VObj [(js "id", VNum 4);
                                   (js "attributes", VObj [(js "name", VStr (js "b"))])];
                             VObj [(js "id", VNum 5);
                                   (js "attributes", VObj [(js "name", VStr (js "c"))])]])])])].

(** An entity whose [attributes] has a property that is itself named
    [attributes]. *)
Definition nested_attributes : value :=
  VObj [(js "id", VNum 1);
        (js "attributes",
         VObj [(js "attributes", VObj [(js "b", VNum 1)])])].

(** An article that is already flat. *)
Definition flat_article : value :=
  VObj [(js "id", VNum 1);
        (js "title", VStr (js "Kintsugi"));
        (js "category", VObj [(js "id", VNum 7); (js "slug", VStr (js "art"))])].

(** ** Requests and transports *)





(** A well-formed string: every surrogate code unit is part of a pair. *)
Fixpoint well_formed (s : jsstring) : bool :=
  match s with
  | [] => true
  | c :: s' =>
      if is_high_surrogate c then
        match s' with
        | d :: s'' => is_low_surrogate d && well_formed s''
        | [] => false
        end
      else negb (is_low_surrogate c) && well_formed s'
  end.

(** A failed fetch: the transport rejects, or the response is not [ok]. *)
Definition failed (outcome : completion response) : Prop :=
  match outcome with
  | Throw _ => True
  | Return res => ok res = false
  end.

(** A successful fetch of the JSON body [body]. *)
Definition succeeded (outcome : completion response) (body : value) : Prop :=
  exists res, outcome = Return res /\ ok res = true /\ json res = Return body.

(** The entries that a response body holds: the elements of its [data]
    when that is an array, [data] itself when it is another truthy value,
    none otherwise. *)
Definition entries_of (body : value) : list value :=
  match get_opt body (js "data") with
  | VArr items => items
  | d => if truthy d then [d] else []
  end.

(** An empty collection as the content API answers it, with its
    pagination. *)
Definition empty_page_body : value :=
  VObj [(js "data", VArr []);
        (js "meta", VObj [(js "pagination", VObj [(js "total", VNum 0)])])].

(** A successful response with the given JSON body. *)
Definition ok_response (body : value) : response :=
  {| ok := true; status := 200; json := Return body |}.

(** A transport that is down, and one that answers with status 500. *)
Definition network_down : transport := fun _ => Throw (js "fetch failed").

Definition server_error : transport :=
  fun _ => Return {| ok := false; status := 500; json := Throw (js "no body") |}.

(** ** Locales and UI strings *)


(** The check of one entry of the UI tables: [t] gives a string, which is
    the English one unless the locale is ['en'] or ['ja']. *)
Definition ui_entry_ok (locale key : jsstring) : bool :=
  match t locale key with
  | Some s =>
      str_eqb locale (js "en") || str_eqb locale (js "ja")
      || bool_decide (Some s = t (js "en") key)
  | None => false
  end.

(** ** Slugs *)

(** [A-Z] *)
Definition is_upper (c : N) : bool := ((0x41 <=? c) && (c <=? 0x5A))%N.

(** [0-9] *)
Definition is_digit (c : N) : bool := ((0x30 <=? c) && (c <=? 0x39))%N.

(** The code units of a slug: [a-z], [0-9], [_], Hiragana, Katakana, CJK
    ideographs and the hyphen. *)
Definition is_slug_char (c : N) : bool :=
  (((0x30 <=? c) && (c <=? 0x39)) || ((0x61 <=? c) && (c <=? 0x7A))
   || (c =? 0x5F)
   || ((0x3040 <=? c) && (c <=? 0x309F))
   || ((0x30A0 <=? c) && (c <=? 0x30FF))
   || ((0x4E00 <=? c) && (c <=? 0x9FAF))
   || (c =? 0x2D))%N.

(** No two neighbouring code units of [s] both satisfy [q]. *)
Fixpoint no_adjacent (q : N -> bool) (s : jsstring) : Prop :=
  match s with
  | [] => True
  | c :: s' =>
      match s' with
      | [] => True
      | d :: _ => q c && q d = false
      end /\ no_adjacent q s'
  end.

(** [s] with every maximal run of code units satisfying [p] replaced by the
    single code unit [h]; [in_run] tells whether the code unit before [s]
    belongs to such a run. *)
Fixpoint squeeze (p : N -> bool) (h : N) (in_run : bool) (s : jsstring)
    : jsstring :=
  match s with
  | [] => []
  | c :: s' =>
      if p c then (if in_run then squeeze p h true s' else h :: squeeze p h true s')
      else c :: squeeze p h false s'
  end.

(** [s] without its last code unit when that satisfies [q]. *)
Fixpoint drop_last_if (q : N -> bool) (s : jsstring) : jsstring :=
  match s with
  | [] => []
  | c :: s' =>
      match s' with
      | [] => if q c then [] else [c]
      | _ :: _ => c :: drop_last_if q s'
      end
  end.

(** ** Excerpts *)

(** The only white space in [s] is the plain space, never twice in a
    row. *)
Definition plain_spaced (s : jsstring) : Prop :=
  Forall (fun c => is_space c = true -> c = 0x20%N) s /\ no_adjacent is_space s.

(** ** Responses *)

(** A response body with two entries and a [meta]. *)
Definition two_articles_body : value :=
  VObj [(js "data", VArr [article_with_tags; nested_attributes]);
        (js "meta", VObj [(js "total", VNum 2)])].

(** ** Queries *)

(** A filter value that is neither [undefined] nor [null]. *)
Definition present (v : value) : bool :=
  match v with
  | VUndefined | VNull => false
  | _ => true
  end.

(** The filters that count. *)
Definition present_filters (filters : list (jsstring * value))
    : list (jsstring * value) :=
  List.filter (fun kv => present kv.2) filters.

(** A transport that rejects every query for featured articles and answers
    the others with [two_articles_body]. *)
Definition featured_down : transport :=
  fun req =>
    match I18n.get (params req) (js "filters[featured][$eq]") with
    | Some _ => Throw (js "fetch failed")
    | None => Return (ok_response two_articles_body)
    end.

(** ** Articles with images *)

(** The attributes of a media entity and of an article whose cover image
    is that entity. *)
Definition cover_media_attrs : list (jsstring * value) :=
  [(js "name", VStr (js "bowl.jpg")); (js "url", VStr (js "/uploads/bowl.jpg"))].

Definition cover_article_attrs : list (jsstring * value) :=
  [(js "title", VStr (js "Kintsugi"));
   (js "coverImage",
    VObj [(js "data",
           VObj [(js "id", VNum 9); (js "attributes", VObj cover_media_attrs)])])].

(** ** UI strings *)

(** Both translated tables have an entry for [key]. *)
Definition in_both_tables (key : jsstring) : bool :=
  bool_decide (is_Some (I18n.get uiBase key))
  && bool_decide (is_Some (I18n.get uiJa key)).

(* ===================================================================== *)
(** * Properties of the response normalizer *)
(* ===================================================================== *)

Section NormalizeFacts.

Implicit Types (props obj : list (jsstring * value)) (key k : jsstring).
Implicit Types (v entity : value) (rec : value -> value).

Lemma str_eqb_true (a b : jsstring) : str_eqb a b = true <-> a = b.
Proof. unfold str_eqb. apply bool_decide_eq_true. Qed.

Lemma str_eqb_refl (a : jsstring) : str_eqb a a = true.
Proof. by apply str_eqb_true. Qed.

Lemma str_eqb_ne (a b : jsstring) : a <> b -> str_eqb a b = false.
Proof. intros. unfold str_eqb. by apply bool_decide_eq_false. Qed.

(** *** Property lists *)

Lemma map_fixed {A : Type} (f : A -> A) (l : list A) :
  (forall x, x ∈ l -> f x = x) -> map f l = l.
Proof.
  induction l as [|a l IH]; intros Hf; simpl; [done|].
  rewrite Hf by left. f_equal. apply IH. intros x Hx. apply Hf. by right.
Qed.

Lemma lookup_prop_Some_elem props key v :
  lookup_prop props key = Some v -> (key, v) ∈ props.
Proof.
  induction props as [|[k x] props IH]; simpl; [done|].
  unfold str_eqb. case_bool_decide; intros H1.
  - injection H1 as ->. subst. left.
  - right. auto.
Qed.

Lemma lookup_prop_is_Some props key :
  is_Some (lookup_prop props key) <-> key ∈ map fst props.
Proof.
  induction props as [|[k x] props IH]; simpl.
  - split; [by intros [? ?] | by intros ?%elem_of_nil].
  - unfold str_eqb. case_bool_decide; subst.
    + split; [left | eauto].
    + rewrite IH. split; [by right|]. by intros [?|?]%elem_of_cons.
Qed.

Lemma lookup_prop_elem_NoDup props key v :
  NoDup (map fst props) -> (key, v) ∈ props -> lookup_prop props key = Some v.
Proof.
  induction props as [|[k x] props IH]; simpl; intros Hnd Hin.
  - by apply elem_of_nil in Hin.
  - apply NoDup_cons in Hnd as [Hk Hnd].
    apply elem_of_cons in Hin as [Heq|Hin].
    + injection Heq as -> ->. by rewrite str_eqb_refl.
    + rewrite str_eqb_ne; [auto|].
      intros ->. apply Hk. apply list_elem_of_fmap. by exists (k, v).
Qed.

Lemma set_prop_keys_present props key v :
  key ∈ map fst props -> map fst (set_prop props key v) = map fst props.
Proof.
  induction props as [|[k x] props IH]; simpl; intros Hin.
  - by apply elem_of_nil in Hin.
  - unfold str_eqb. case_bool_decide; simpl; [done|].
    f_equal. apply IH. apply elem_of_cons in Hin as [?|?]; [congruence|done].
Qed.

Lemma set_prop_keys_absent props key v :
  key ∉ map fst props -> map fst (set_prop props key v) = map fst props ++ [key].
Proof.
  induction props as [|[k x] props IH]; simpl; intros Hin; [done|].
  rewrite str_eqb_ne.
  - simpl. f_equal. apply IH. intros ?. apply Hin. by right.
  - intros ->. apply Hin. left.
Qed.

Lemma set_prop_NoDup props key v :
  NoDup (map fst props) -> NoDup (map fst (set_prop props key v)).
Proof.
  intros Hnd. destruct (decide (key ∈ map fst props)) as [Hin|Hin].
  - by rewrite set_prop_keys_present.
  - rewrite set_prop_keys_absent by done.
    apply NoDup_app. split_and!; [done| |apply NoDup_singleton].
    intros x Hx ->%list_elem_of_singleton. done.
Qed.

Lemma set_prop_elem props key v kx :
  kx ∈ set_prop props key v -> kx = (key, v) \/ kx ∈ props.
Proof.
  induction props as [|[k x] props IH]; simpl.
  - intros ->%list_elem_of_singleton. by left.
  - unfold str_eqb. case_bool_decide; subst.
    + intros [->|?]%elem_of_cons; [by left | right; by right].
    + intros [->|?]%elem_of_cons; [right; left|].
      destruct IH as [?|?]; auto. right. by right.
Qed.

(** Assigning to a property that is there rewrites it in place. *)
Lemma set_prop_map props key v :
  NoDup (map fst props) -> key ∈ map fst props ->
  set_prop props key v =
  map (fun kx => if decide (kx.1 = key) then (kx.1, v) else kx) props.
Proof.
  induction props as [|[k x] props IH]; simpl; intros Hnd Hin.
  - by apply elem_of_nil in Hin.
  - apply NoDup_cons in Hnd as [Hk Hnd]. unfold str_eqb.
    case_bool_decide; subst; simpl.
    + rewrite decide_True by done. f_equal.
      symmetry. apply map_fixed.
      intros [k' x'] Hin'. simpl. rewrite decide_False; [done|].
      intros ->. apply Hk. apply list_elem_of_fmap. by exists (k, x').
    + rewrite decide_False by congruence. f_equal. apply IH; [done|].
      apply elem_of_cons in Hin as [?|?]; [congruence|done].
Qed.

(** *** The loop over the keys *)

Lemma map_keys_preserved (g : jsstring * value -> jsstring * value) obj :
  (forall kx, (g kx).1 = kx.1) -> map fst (map g obj) = map fst obj.
Proof.
  intros Hg. rewrite map_map. apply map_ext. intros kx. apply Hg.
Qed.

Lemma normalize_key_map rec obj k :
  NoDup (map fst obj) -> k ∈ map fst obj ->
  normalize_key rec obj k =
  map (fun kx => if decide (kx.1 = k) then (kx.1, resolved rec kx.2) else kx) obj.
Proof.
  intros Hnd Hin.
  destruct (proj2 (lookup_prop_is_Some obj k) Hin) as [v Hv].
  assert (Hat : forall kx, kx ∈ obj -> kx.1 = k -> kx.2 = v).
  { intros [k' x] Hkx ?. simpl in *. subst k'.
    pose proof (lookup_prop_elem_NoDup _ _ _ Hnd Hkx). congruence. }
  assert (Hset : forall x, resolved rec v = x ->
            set_prop obj k x =
            map (fun kx => if decide (kx.1 = k) then (kx.1, resolved rec kx.2) else kx) obj).
  { intros x Hx. rewrite set_prop_map by done. apply map_ext_in.
    intros kx Hkx%list_elem_of_In. destruct (decide (kx.1 = k)); [|done].
    rewrite (Hat kx) by done. by rewrite Hx. }
  unfold normalize_key. simpl get_prop. rewrite Hv. simpl.
  destruct (is_relation v) eqn:Hrel.
  - destruct (get_prop v (js "data")) eqn:Hd;
      apply Hset; unfold resolved; by rewrite Hrel, Hd.
  - symmetry. apply map_fixed.
    intros kx Hkx. destruct (decide (kx.1 = k)); [|done].
    rewrite (Hat kx) by done. unfold resolved. rewrite Hrel.
    rewrite <- (Hat kx) by done. by destruct kx.
Qed.

Lemma fold_normalize_key rec keys : forall obj,
  NoDup keys -> NoDup (map fst obj) -> (forall k, k ∈ keys -> k ∈ map fst obj) ->
  fold_left (normalize_key rec) keys obj =
  map (fun kx => if decide (kx.1 ∈ keys) then (kx.1, resolved rec kx.2) else kx) obj.
Proof.
  induction keys as [|k keys IH]; intros obj Hk Hnd Hsub; simpl.
  - symmetry. apply map_fixed.
    by intros kx _.
  - apply NoDup_cons in Hk as [Hk1 Hk2].
    rewrite normalize_key_map by (try done; apply Hsub; left).
    rewrite IH; [|done| |].
    + rewrite map_map. apply map_ext. intros [k' x]. simpl.
      destruct (decide (k' = k)) as [->|Hne]; simpl.
      * rewrite decide_False by done. rewrite decide_True by left. done.
      * destruct (decide (k' ∈ keys)).
        -- rewrite decide_True by (by right). done.
        -- rewrite decide_False; [done|]. by intros [?|?]%elem_of_cons.
    + rewrite map_keys_preserved; [done|]. intros kx. by destruct (decide _).
    + intros k' Hk'. rewrite map_keys_preserved.
      * apply Hsub. by right.
      * intros kx. by destruct (decide _).
Qed.

Lemma spread_into_NoDup props v :
  NoDup (map fst props) -> NoDup (map fst (spread_into props v)).
Proof.
  unfold spread_into. generalize (own_entries v). intros entries.
  revert props. induction entries as [|e entries IH]; intros props Hnd; simpl.
  - done.
  - apply IH. by apply set_prop_NoDup.
Qed.

Lemma merged_NoDup entity : NoDup (map fst (merged entity)).
Proof. unfold merged. apply spread_into_NoDup. simpl. apply NoDup_singleton. Qed.

(** The loop rewrites every property by [resolved]. *)
Lemma normalize_body_entity rec entity :
  truthy entity = true -> is_entity entity = true ->
  normalize_body rec entity =
  VObj (map (fun kx => (kx.1, resolved rec kx.2)) (merged entity)).
Proof.
  intros Ht He. unfold normalize_body. rewrite Ht, He. simpl. f_equal.
  rewrite fold_normalize_key.
  - apply map_ext_in. intros kx Hkx. rewrite decide_True; [done|].
    apply list_elem_of_In. by apply in_map.
  - apply merged_NoDup.
  - apply merged_NoDup.
  - done.
Qed.

(** *** The recursion descends *)

Lemma size_elem_arr v items : v ∈ items -> size v < size (VArr items).
Proof.
  simpl. induction 1; lia.
Qed.

Lemma size_elem_obj k v props : (k, v) ∈ props -> size v < size (VObj props).
Proof.
  simpl. induction props as [|[k' x] props IH].
  - by intros ?%elem_of_nil.
  - intros [Heq|Hin]%elem_of_cons.
    + injection Heq as -> ->. lia.
    + specialize (IH Hin). lia.
Qed.

Lemma get_prop_size v key :
  truthy v = true -> is_object v = true -> size (get_prop v key) < size v.
Proof.
  destruct v as [| | | | |items|props]; try done; intros _ _.
  - simpl get_prop. destruct (str_eqb key (js "length")); [simpl; lia|].
    destruct (index_of_key key (length items)) as [i|]; [|simpl; lia].
    simpl. destruct (items !! i) as [x|] eqn:Hx; [|simpl; lia].
    apply size_elem_arr. by eapply list_elem_of_lookup_2.
  - simpl get_prop. destruct (lookup_prop props key) as [x|] eqn:Hx; [|simpl; lia].
    simpl. eapply size_elem_obj. by apply lookup_prop_Some_elem.
Qed.

Lemma own_entries_size a k v :
  (k, v) ∈ own_entries a -> size v <= size a.
Proof.
  destruct a as [| | | |s|items|props]; simpl; try by intros ?%elem_of_nil.
  - intros (i & c & Heq & _)%elem_of_lookup_imap. injection Heq as _ ->. done.
  - intros (i & x & Heq & Hx)%elem_of_lookup_imap. injection Heq as _ ->.
    apply list_elem_of_lookup_2 in Hx. apply size_elem_arr in Hx. simpl in Hx. lia.
  - intros Hin. apply size_elem_obj in Hin. simpl in Hin. lia.
Qed.

Lemma spread_into_elem props a kx :
  kx ∈ spread_into props a -> kx ∈ props \/ kx ∈ own_entries a.
Proof.
  unfold spread_into. generalize (own_entries a). intros entries.
  revert props. induction entries as [|e entries IH]; intros props; simpl.
  - by left.
  - intros [Hin|Hin]%IH.
    + apply set_prop_elem in Hin as [->|?]; [|by left].
      right. destruct e. left.
    + right. by right.
Qed.

Lemma merged_size entity k v :
  truthy entity = true -> is_entity entity = true ->
  (k, v) ∈ merged entity -> size v < size entity.
Proof.
  intros Ht He Hin.
  assert (Ho : is_object entity = true).
  { unfold is_entity in He. by destruct (is_object entity). }
  apply spread_into_elem in Hin as [Hin|Hin].
  - apply list_elem_of_singleton in Hin. injection Hin as _ ->.
    by apply get_prop_size.
  - pose proof (get_prop_size entity (js "attributes") Ht Ho) as Hlt.
    destruct (get_prop entity (js "attributes")) eqn:Ha; unfold nullish in Hin;
      first [ by apply elem_of_nil in Hin
            | apply own_entries_size in Hin; simpl in *; lia ].
Qed.

Lemma resolved_ext rec1 rec2 value :
  (forall v', size v' < size value -> rec1 v' = rec2 v') ->
  resolved rec1 value = resolved rec2 value.
Proof.
  intros Hrec. unfold resolved. destruct (is_relation value) eqn:Hrel; [|done].
  unfold is_relation in Hrel.
  apply andb_prop in Hrel as [[Ht Ho]%andb_prop _].
  pose proof (get_prop_size value (js "data") Ht Ho) as Hlt.
  destruct (get_prop value (js "data")) as [| | | | |items|props] eqn:Hd;
    try (apply Hrec; done); [done|].
  f_equal. apply map_ext_in. intros x Hx%list_elem_of_In.
  apply Hrec. apply size_elem_arr in Hx. lia.
Qed.

Lemma normalize_body_ext rec1 rec2 entity :
  (forall v', size v' < size entity -> rec1 v' = rec2 v') ->
  normalize_body rec1 entity = normalize_body rec2 entity.
Proof.
  intros Hrec. destruct (truthy entity) eqn:Ht.
  - destruct (is_entity entity) eqn:He.
    + rewrite !normalize_body_entity by done. f_equal.
      apply map_ext_in. intros [k x] Hkx%list_elem_of_In. simpl. f_equal.
      apply resolved_ext. intros v' Hv'. apply Hrec.
      pose proof (merged_size entity k x Ht He Hkx). lia.
    + unfold normalize_body. by rewrite Ht, He.
  - unfold normalize_body. by rewrite Ht.
Qed.

Lemma normalize_fuel_stable n : forall m v,
  size v < n -> size v < m -> normalize_fuel n v = normalize_fuel m v.
Proof.
  induction n as [|n IH]; intros m v Hn Hm; [lia|].
  destruct m as [|m]; [lia|]. simpl.
  apply normalize_body_ext. intros v' Hv'. apply IH; lia.
Qed.

(** More fuel than [normalize] takes does not change the result. *)
Lemma normalize_fuel_enough fuel entity :
  size entity < fuel -> normalize_fuel fuel entity = normalize entity.
Proof.
  intros H. unfold normalize. apply normalize_fuel_stable; lia.
Qed.

(** [normalize] satisfies the recursive equation of the source. *)
Lemma normalize_unfold entity :
  normalize entity = normalize_body normalize entity.
Proof.
  unfold normalize at 1. simpl.
  apply normalize_body_ext. intros v' Hv'.
  by apply normalize_fuel_enough.
Qed.

(** *** Reading the result *)

Lemma lookup_prop_map_values (f : value -> value) obj key :
  lookup_prop (map (fun kx => (kx.1, f kx.2)) obj) key = f <$> lookup_prop obj key.
Proof.
  induction obj as [|[k x] obj IH]; simpl; [done|].
  by destruct (str_eqb key k).
Qed.

Lemma lookup_set_prop_eq props key v :
  lookup_prop (set_prop props key v) key = Some v.
Proof.
  induction props as [|[k x] props IH]; simpl.
  - by rewrite str_eqb_refl.
  - destruct (str_eqb key k) eqn:E; simpl; by rewrite E.
Qed.

Lemma lookup_set_prop_ne props key key' v :
  key <> key' -> lookup_prop (set_prop props key v) key' = lookup_prop props key'.
Proof.
  intros Hne. induction props as [|[k x] props IH]; simpl.
  - by rewrite str_eqb_ne.
  - destruct (str_eqb key k) eqn:E; simpl.
    + apply str_eqb_true in E as ->. by rewrite !str_eqb_ne by done.
    + by rewrite IH.
Qed.

Lemma lookup_spread_absent entries : forall props key,
  key ∉ map fst entries ->
  lookup_prop (fold_left (fun acc kv => set_prop acc kv.1 kv.2) entries props) key
  = lookup_prop props key.
Proof.
  induction entries as [|[k x] entries IH]; intros props key Hk; simpl; [done|].
  rewrite IH.
  - apply lookup_set_prop_ne. intros ->. apply Hk. left.
  - intros ?. apply Hk. by right.
Qed.

Lemma lookup_spread_present entries : forall props key x,
  NoDup (map fst entries) -> (key, x) ∈ entries ->
  lookup_prop (fold_left (fun acc kv => set_prop acc kv.1 kv.2) entries props) key
  = Some x.
Proof.
  induction entries as [|[k y] entries IH]; intros props key x Hnd Hin; simpl.
  - by apply elem_of_nil in Hin.
  - apply NoDup_cons in Hnd as [Hk Hnd].
    apply elem_of_cons in Hin as [Heq|Hin].
    + injection Heq as -> ->.
      rewrite lookup_spread_absent by done. apply lookup_set_prop_eq.
    + by apply IH.
Qed.

(** A property of the [attributes] object is a property of the merged
    object, with the same value. *)
Lemma merged_attribute entity attrs key x :
  get_prop entity (js "attributes") = VObj attrs ->
  NoDup (map fst attrs) ->
  lookup_prop attrs key = Some x ->
  lookup_prop (merged entity) key = Some x.
Proof.
  intros Ha Hnd Hx. unfold merged, spread_into. rewrite Ha. simpl.
  apply lookup_spread_present; [done|]. by apply lookup_prop_Some_elem.
Qed.

Lemma normalize_entity entity :
  truthy entity = true -> is_entity entity = true ->
  normalize entity =
  VObj (map (fun kx => (kx.1, resolved normalize kx.2)) (merged entity)).
Proof.
  intros. rewrite normalize_unfold. by apply normalize_body_entity.
Qed.

Lemma normalize_not_entity v :
  truthy v = true -> is_entity v = false -> normalize v = v.
Proof.
  intros Ht He. rewrite normalize_unfold. unfold normalize_body.
  by rewrite Ht, He.
Qed.

Lemma normalize_falsy v : truthy v = false -> normalize v = VNull.
Proof.
  intros Ht. rewrite normalize_unfold. unfold normalize_body. by rewrite Ht.
Qed.

(** The result is [null] or a truthy value. *)
Lemma normalize_null_or_truthy v :
  normalize v = VNull \/ truthy (normalize v) = true.
Proof.
  destruct (truthy v) eqn:Ht.
  - right. destruct (is_entity v) eqn:He.
    + by rewrite normalize_entity.
    + by rewrite normalize_not_entity.
  - left. by apply normalize_falsy.
Qed.

End NormalizeFacts.

(** C4. For every property of an entity whose value is a relation wrapper
    (a truthy object carrying [data]), [normalize] leaves in that property:
    [null] when the payload is [null]; the array of the normalized elements,
    in the original order, when the payload is an array; the normalized
    payload otherwise. The properties of the entity are those of the merged
    object [{ id, ...attributes }], among them every property of an
    [attributes] object. *)
Theorem normalize_relation_fields (entity : value) (key : jsstring) (x : value) :
  truthy entity = true ->
  is_entity entity = true ->
  lookup_prop (merged entity) key = Some x
  \/ (exists attrs, get_prop entity (js "attributes") = VObj attrs
                    /\ NoDup (map fst attrs)
                    /\ lookup_prop attrs key = Some x) ->
  is_relation x = true ->
  get_prop (normalize entity) key =
  match get_prop x (js "data") with
  | VNull => VNull
  | VArr items => VArr (map normalize items)
  | rel => normalize rel
  end.
Proof.
  intros Ht He Hx Hrel.
  assert (Hm : lookup_prop (merged entity) key = Some x).
  { destruct Hx as [?|(attrs & Ha & Hnd & Hx)]; [done|].
    by eapply merged_attribute. }
  rewrite normalize_entity by done. simpl get_prop.
  rewrite lookup_prop_map_values, Hm. simpl.
  unfold resolved. by rewrite Hrel.
Qed.

Lemma normalize_relation_fields_witness :
  get_prop (normalize article_with_tags) (js "tags") =
  VArr [VObj [(js "id", VNum 3); (js "name", VStr (js "a"))];
        VObj [(js "id", VNum 4); (js "name", VStr (js "b"))];
        VObj [(js "id", VNum 5); (js "name", VStr (js "c"))]].
Proof.
  rewrite (normalize_relation_fields article_with_tags (js "tags")
             (VObj [(js "data",
                       VArr [VObj [(js "id", VNum 3);
                                   (js "attributes", VObj [(js "name", VStr (js "a"))])];
                             VObj [(js "id", VNum 4);
                                   (js "attributes", VObj [(js "name", VStr (js "b"))])];
                             VObj [(js "id", VNum 5);
                                   (js "attributes", VObj [(js "name", VStr (js "c"))])]])])).
  - vm_compute. reflexivity.
  - vm_compute. reflexivity.
  - vm_compute. reflexivity.
  - left. vm_compute. reflexivity.
  - vm_compute. reflexivity.
Defined.

(** C2, as stated, fails: the result of [normalize] can still carry [id] and
    [attributes], and a second pass flattens it again. The value
    [{ id: 1, attributes: { b: 1 } }] is the output of [normalize], holds no
    relation wrapper, and is not returned unchanged. *)
Lemma normalize_not_idempotent :
  normalize nested_attributes =
    VObj [(js "id", VNum 1); (js "attributes", VObj [(js "b", VNum 1)])]
  /\ normalize (normalize nested_attributes) =
    VObj [(js "id", VNum 1); (js "b", VNum 1)]
  /\ normalize (normalize nested_attributes) <> normalize nested_attributes.
Proof.
  split_and!; [by vm_compute | by vm_compute |].
  vm_compute. discriminate.
Qed.

(** C2, amended. [normalize] returns unchanged every truthy value that does
    not carry both [id] and [attributes]; so [normalize (normalize x)] is
    [normalize x] whenever [normalize x] does not carry both, and this is
    the case for every entity whose [attributes] is null or an object
    without a property named [attributes]. *)
Theorem normalize_flat_unchanged :
  (forall v : value,
      truthy v = true -> is_entity v = false -> normalize v = v)
  /\ (forall x : value,
         is_entity (normalize x) = false ->
         normalize (normalize x) = normalize x)
  /\ (forall (x : value) (attrs : list (jsstring * value)),
         truthy x = true -> is_entity x = true ->
         nullish (get_prop x (js "attributes")) (VObj []) = VObj attrs ->
         lookup_prop attrs (js "attributes") = None ->
         normalize (normalize x) = normalize x).
Proof.
  assert (H2 : forall x : value,
             is_entity (normalize x) = false ->
             normalize (normalize x) = normalize x).
  { intros x He. destruct (normalize_null_or_truthy x) as [Hn|Ht].
    - rewrite Hn. by apply normalize_falsy.
    - by apply normalize_not_entity. }
  split_and!; [apply normalize_not_entity | done |].
  intros x attrs Ht He Ha Hno. apply H2.
  rewrite normalize_entity by done.
  unfold is_entity. simpl.
  rewrite (lookup_prop_map_values (resolved normalize) (merged x) (js "attributes")).
  assert (Hm : lookup_prop (merged x) (js "attributes") = None).
  { unfold merged, spread_into. rewrite Ha. simpl own_entries.
    rewrite lookup_spread_absent; [by vm_compute|].
    intros Hin. apply lookup_prop_is_Some in Hin. rewrite Hno in Hin.
    by destruct Hin. }
  rewrite Hm. simpl. apply andb_false_r.
Qed.

Lemma normalize_flat_unchanged_witness :
  normalize flat_article = flat_article
  /\ normalize (normalize article_with_tags) = normalize article_with_tags.
Proof.
  destruct normalize_flat_unchanged as (H1 & H2 & H3). split.
  - apply H1; by vm_compute.
  - apply (H3 article_with_tags
             [(js "title", VStr (js "Kintsugi"));
               (js "cover", VObj [(js "data", VNull)]);
               (js "category",
                VObj [(js "data",
                       VObj [(js "id", VNum 7);
                             (js "attributes", VObj [(js "slug", VStr (js "art"))])])]);
               (js "tags",
                VObj [(js "data",
                       VArr [VObj [(js "id", VNum 3);
                                   (js "attributes", VObj [(js "name", VStr (js "a"))])];
                             VObj [(js "id", VNum 4);
                                   (js "attributes", VObj [(js "name", VStr (js "b"))])];
                             VObj [(js "id", VNum 5);
                                   (js "attributes", VObj [(js "name", VStr (js "c"))])]])])]);
      by vm_compute.
Defined.

(* ===================================================================== *)
(** * Properties of the regular expression matcher *)
(* ===================================================================== *)

Section MatcherFacts.

Context {A : Type}.
Implicit Types (p : N -> bool) (s rest : jsstring) (prev : option N).

Lemma quant_greedy_consumes p rest : forall lo hi prev
    (k : option N -> jsstring -> option A) a,
  quant_greedy p lo hi prev rest k = Some a ->
  exists prev' rest', k prev' rest' = Some a /\ length rest' + lo <= length rest.
Proof.
  induction rest as [|c rest IH]; intros lo hi prev k a.
  - simpl. destruct (hi_zero hi), (Nat.eqb_spec lo 0); try done;
      intros; exists prev, []; subst; simpl; split; (done || lia).
  - simpl.
    assert (Hstop : (if Nat.eqb lo 0 then k prev (c :: rest) else None) = Some a ->
                    exists prev' rest', k prev' rest' = Some a
                                        /\ length rest' + lo <= S (length rest)).
    { destruct (Nat.eqb_spec lo 0); [|done]. intros. exists prev, (c :: rest).
      subst. simpl. split; [done|lia]. }
    destruct (hi_zero hi); [done|]. destruct (p c); [|done].
    destruct (quant_greedy p (Nat.pred lo) (Nat.pred <$> hi) (Some c) rest k) eqn:E;
      [|done].
    intros [= ->]. apply IH in E as (prev' & rest' & Hk & Hl).
    exists prev', rest'. split; [done|lia].
Qed.

Lemma quant_lazy_consumes p rest : forall lo hi prev
    (k : option N -> jsstring -> option A) a,
  quant_lazy p lo hi prev rest k = Some a ->
  exists prev' rest', k prev' rest' = Some a /\ length rest' + lo <= length rest.
Proof.
  induction rest as [|c rest IH]; intros lo hi prev k a.
  - simpl. destruct (Nat.eqb_spec lo 0).
    + destruct (k prev []) eqn:E; [|by destruct (hi_zero hi)].
      intros [= ->]. exists prev, []. subst. simpl. split; [done|lia].
    + by destruct (hi_zero hi).
  - simpl.
    assert (Hmore : (if hi_zero hi then None
                     else if p c
                          then quant_lazy p (Nat.pred lo) (Nat.pred <$> hi) (Some c) rest k
                          else None) = Some a ->
                    exists prev' rest', k prev' rest' = Some a
                                        /\ length rest' + lo <= S (length rest)).
    { destruct (hi_zero hi); [done|]. destruct (p c); [|done].
      intros (prev' & rest' & Hk & Hl)%IH. exists prev', rest'. split; [done|lia]. }
    destruct (Nat.eqb_spec lo 0); [|done].
    destruct (k prev (c :: rest)) eqn:E; [|done].
    intros [= ->]. exists prev, (c :: rest). subst. simpl. split; [done|lia].
Qed.

(** A match of [r] passes over at least [min_length r] code units. *)
Lemma rmatch_consumes (r : regex) : forall prev rest caps (k : cont) (a : A),
  rmatch r prev rest caps k = Some a ->
  exists prev' rest' caps',
    k prev' rest' caps' = Some a /\ length rest' + min_length r <= length rest.
Proof.
  induction r as [|p|m|m|r1 IH1 r2 IH2|r1 IH1 r2 IH2|i r IH|greedy lo hi p];
    intros prev rest caps k a; simpl.
  - intros. exists prev, rest, caps. split; [done|lia].
  - destruct rest as [|c rest]; [done|]. destruct (p c); [|done].
    intros. exists (Some c), rest, caps. simpl. split; [done|lia].
  - destruct (at_start m prev); [|done].
    intros. exists prev, rest, caps. split; [done|lia].
  - destruct (at_end m rest); [|done].
    intros. exists prev, rest, caps. split; [done|lia].
  - intros (prev1 & rest1 & caps1 & H1 & Hl1)%IH1.
    apply IH2 in H1 as (prev2 & rest2 & caps2 & H2 & Hl2).
    exists prev2, rest2, caps2. split; [done|lia].
  - destruct (rmatch r1 prev rest caps k) eqn:E.
    + intros [= ->]. apply IH1 in E as (prev' & rest' & caps' & H & Hl).
      exists prev', rest', caps'. split; [done|lia].
    + intros (prev' & rest' & caps' & H & Hl)%IH2.
      exists prev', rest', caps'. split; [done|lia].
  - intros (prev' & rest' & caps' & H & Hl)%IH. eauto.
  - destruct greedy.
    + intros (prev' & rest' & H & Hl)%quant_greedy_consumes. eauto.
    + intros (prev' & rest' & H & Hl)%quant_lazy_consumes. eauto.
Qed.

(** A greedy quantifier whose continuation accepts takes the whole run. *)
Lemma quant_greedy_run p (g : jsstring -> A) s : forall lo prev,
  quant_greedy p lo None prev s (fun _ rest' => Some (g rest')) =
  if decide (lo <= run_length p s) then Some (g (drop (run_length p s) s))
  else None.
Proof.
  induction s as [|c s IH]; intros lo prev; simpl.
  - destruct (Nat.eqb_spec lo 0); subst.
    + by rewrite decide_True by lia.
    + by rewrite decide_False by lia.
  - destruct (p c) eqn:Hp; simpl.
    + rewrite IH. destruct (decide (Nat.pred lo <= run_length p s)).
      * by rewrite decide_True by lia.
      * rewrite decide_False by lia. destruct (Nat.eqb_spec lo 0); [lia|done].
    + destruct (Nat.eqb_spec lo 0); subst.
      * by rewrite decide_True by lia.
      * by rewrite decide_False by lia.
Qed.

End MatcherFacts.

Lemma exec_min_length (r : regex) prev rest n caps :
  exec r prev rest = Some (n, caps) -> min_length r <= n.
Proof.
  unfold exec. intros (prev' & rest' & caps' & H & Hl)%rmatch_consumes.
  injection H as <- _. lia.
Qed.

Lemma run_length_le p s : run_length p s <= length s.
Proof. induction s as [|c s IH]; simpl; [lia|]. destruct (p c); lia. Qed.

(** [p+] at the current position matches the whole run of [p]. *)
Lemma exec_plus p prev s :
  exec (plus p) prev s =
  match run_length p s with
  | 0 => None
  | S n => Some (S n, [])
  end.
Proof.
  unfold exec, plus. simpl.
  rewrite (quant_greedy_run p (fun rest' => ((length s - length rest')%nat, []))).
  pose proof (run_length_le p s).
  destruct (run_length p s) as [|n] eqn:E.
  - by rewrite decide_False by lia.
  - rewrite decide_True by lia. rewrite length_drop. do 2 f_equal. lia.
Qed.

(* ===================================================================== *)
(** * Properties of the Markdown pipeline *)
(* ===================================================================== *)

(** ** Evaluations *)

(** Every match of the heading pattern passes over at least three code
    units, so the [exec] loop of [extractHeadings] always advances. *)
Lemma headingRegex_consumes prev rest n caps :
  exec headingRegex prev rest = Some (n, caps) -> 3 <= n.
Proof. apply exec_min_length. Qed.

Example slug_of_latin : slug_of (js "Hello, World!") = js "hello-world".
Proof. by vm_compute. Qed.

Example slug_of_japanese :
  slug_of (js "  日本語 の テスト！ ") = js "日本語-の-テスト".
Proof. by vm_compute. Qed.

Example slug_of_symbols : slug_of (js "!!!") = js "section".
Proof. by vm_compute. Qed.

Example slug_of_hyphens : slug_of (js "-a - b-") = js "a-b".
Proof. by vm_compute. Qed.

Example heading_text_markup :
  heading_text (js "**Bold** and [link](http://x) `code` <i>t</i>")
  = js "Bold and link code t".
Proof. by vm_compute. Qed.

Example extractHeadings_h4_ignored :
  extractHeadings (js "#### Deep" ++ [0x0A%N] ++ js "#nospace") = [].
Proof. by vm_compute. Qed.

Example extractHeadings_levels :
  extractHeadings (js "# One" ++ [0x0A%N] ++ js "text" ++ [0x0A%N] ++ js "###   Three  ")
  = [{| level := 1; text := js "One"; id := js "one" |};
     {| level := 3; text := js "Three"; id := js "three" |}].
Proof. by vm_compute. Qed.

(** The renderer keeps its registry between documents: a second document
    with the single heading [Intro] is rendered with the id [intro-2],
    while heading extraction starts afresh and gives [intro]. *)
Example renderer_registry_persists :
  let seen := (render_headings ∅ [TokenArgs (Some 1) (Some (js "Intro"))]).2 in
  (render_headings seen [TokenArgs (Some 1) (Some (js "Intro"))]).1
  = [heading_html 1 (js "intro-2") (js "Intro")]
  /\ map id (extractHeadings (js "# Intro")) = [js "intro"].
Proof. by vm_compute. Qed.

Example split_trimmed : split (plus is_space) (js "a b  c") = [js "a"; js "b"; js "c"].
Proof. by vm_compute. Qed.

Example split_empty : split (plus is_space) [] = [[]].
Proof. by vm_compute. Qed.

(** ** Reading time *)

Section ReadingTimeFacts.

Implicit Types (s content piece : jsstring) (prev : option N).

Lemma replace_spaces_loop s : forall prev skip,
  skip <= run_length is_space s ->
  replace_loop (plus is_space) [] prev s skip
  = List.filter (fun c => negb (is_space c)) s.
Proof.
  induction s as [|c s IH]; intros prev skip Hskip.
  - simpl in *. by destruct skip.
  - cbn [replace_loop]. destruct skip as [|n].
    + rewrite exec_plus. simpl in *. destruct (is_space c); simpl.
      * apply IH. lia.
      * f_equal. apply IH. lia.
    + simpl in *. destruct (is_space c); simpl; [|lia]. apply IH. lia.
Qed.

Lemma replace_spaces content :
  length (replace_all (plus is_space) [] content) = stripped_length content.
Proof.
  unfold replace_all, stripped_length. rewrite replace_spaces_loop; [done|lia].
Qed.

Lemma nonempty_pieces_cons piece l :
  nonempty_pieces (piece :: l)
  = (match piece with [] => 0 | _ :: _ => 1 end) + nonempty_pieces l.
Proof.
  unfold nonempty_pieces. destruct piece.
  - by rewrite filter_cons_False by auto.
  - by rewrite filter_cons_True by done.
Qed.

Lemma rev_nil_inv piece : rev piece = [] -> piece = [].
Proof.
  intros H. apply (f_equal (@length N)) in H. rewrite length_rev in H.
  by destruct piece.
Qed.

Lemma nonempty_pieces_rev piece l :
  nonempty_pieces (rev piece :: l)
  = (match piece with [] => 0 | _ :: _ => 1 end) + nonempty_pieces l.
Proof.
  rewrite nonempty_pieces_cons. destruct piece as [|c piece]; [done|].
  destruct (rev (c :: piece)) eqn:E; [|done].
  by apply rev_nil_inv in E.
Qed.

Lemma split_spaces_loop s : forall prev skip piece,
  skip <= run_length is_space s ->
  (0 < skip -> piece = []) ->
  nonempty_pieces (split_loop (plus is_space) prev s skip piece)
  = count_words (match piece with [] => false | _ :: _ => true end) s
    + match piece with [] => 0 | _ :: _ => 1 end.
Proof.
  induction s as [|c s IH]; intros prev skip piece Hskip Hpiece.
  - cbn [split_loop count_words]. rewrite nonempty_pieces_rev.
    unfold nonempty_pieces. simpl. lia.
  - cbn [split_loop]. destruct skip as [|n].
    + rewrite exec_plus. simpl in *. destruct (is_space c); simpl.
      * rewrite nonempty_pieces_rev, IH by (done || lia). simpl. lia.
      * rewrite IH by (done || lia). simpl. destruct piece; lia.
    + rewrite Hpiece by lia. simpl in *. destruct (is_space c); [|lia].
      rewrite IH by (done || lia). done.
Qed.

Lemma count_words_trimStart s :
  count_words false (trimStart s) = count_words false s.
Proof.
  induction s as [|c s IH]; simpl; [done|].
  destruct (is_space c) eqn:E; [done|]. simpl. by rewrite E.
Qed.

Lemma count_words_snoc_space s c : forall b,
  is_space c = true -> count_words b (s ++ [c]) = count_words b s.
Proof.
  induction s as [|a s IH]; intros b Hc; simpl.
  - by rewrite Hc.
  - destruct (is_space a); by rewrite IH.
Qed.

Lemma count_words_trimEnd s b :
  count_words b (trimEnd s) = count_words b s.
Proof.
  unfold trimEnd. induction s as [|c s IH] using rev_ind; [done|].
  rewrite rev_unit. simpl. destruct (is_space c) eqn:E.
  - by rewrite IH, count_words_snoc_space.
  - simpl. by rewrite rev_involutive.
Qed.

Lemma split_spaces content :
  nonempty_pieces (split (plus is_space) (trim content)) = word_count content.
Proof.
  unfold word_count. rewrite <- count_words_trimStart.
  rewrite <- (count_words_trimEnd (trimStart content)). fold (trim content).
  unfold split. destruct (trim content) as [|c s] eqn:E.
  - by rewrite exec_plus.
  - rewrite split_spaces_loop by (done || lia). simpl. lia.
Qed.

Lemma ceil_div_rounded_up n d : 0 < d -> rounded_up n d (ceil_div n d).
Proof.
  intros Hd. unfold rounded_up, ceil_div.
  pose proof (Nat.div_mod_eq (n + (d - 1)) d).
  pose proof (Nat.mod_upper_bound (n + (d - 1)) d). lia.
Qed.

Lemma stripped_length_all content :
  (forall c, c ∈ content -> is_space c = false) ->
  stripped_length content = length content.
Proof.
  unfold stripped_length. induction content as [|c s IH]; intros H; simpl; [done|].
  rewrite H by left. simpl. f_equal. apply IH. intros. apply H. by right.
Qed.

End ReadingTimeFacts.

(** C8. [calculateReadingTime] returns 0 for empty input; for ['ja'] the
    number of code units that are not white space, divided by 400 and
    rounded up; for any other locale the number of white-space-delimited
    words, divided by 200 and rounded up. ["word ".repeat(200)] under
    ['en'] gives 1, and 401 characters without white space under ['ja']
    give 2. *)
Theorem calculateReadingTime_spec :
  (forall locale : jsstring, calculateReadingTime [] locale = 0)
  /\ (forall content : jsstring,
         rounded_up (stripped_length content) 400
           (calculateReadingTime content (js "ja")))
  /\ (forall content locale : jsstring,
         locale <> js "ja" ->
         rounded_up (word_count content) 200
           (calculateReadingTime content locale))
  /\ calculateReadingTime (concat (replicate 200 (js "word "))) (js "en") = 1
  /\ (forall content : jsstring,
         length content = 401 ->
         (forall c, c ∈ content -> is_space c = false) ->
         calculateReadingTime content (js "ja") = 2).
Proof.
  assert (Hja : forall content : jsstring,
             calculateReadingTime content (js "ja")
             = ceil_div (stripped_length content) 400).
  { intros [|c s]; [done|]. unfold calculateReadingTime.
    rewrite str_eqb_refl. by rewrite replace_spaces. }
  split_and!.
  - done.
  - intros content. rewrite Hja. apply ceil_div_rounded_up. lia.
  - intros [|c s] locale Hl.
    + change (rounded_up 0 200 0). unfold rounded_up. lia.
    + unfold calculateReadingTime. rewrite str_eqb_ne by done.
      fold (nonempty_pieces (split (plus is_space) (trim (c :: s)))).
      rewrite split_spaces. apply ceil_div_rounded_up. lia.
  - by vm_compute.
  - intros content Hlen Hns. rewrite Hja, stripped_length_all, Hlen by done.
    by vm_compute.
Qed.

Lemma calculateReadingTime_spec_witness :
  rounded_up (word_count (js "three short words")) 200
    (calculateReadingTime (js "three short words") (js "en"))
  /\ calculateReadingTime (replicate 401 0x3042%N) (js "ja") = 2.
Proof.
  destruct calculateReadingTime_spec as (_ & _ & Hw & _ & Hj). split.
  - apply Hw. by vm_compute.
  - apply Hj.
    + by vm_compute.
    + intros c ->%elem_of_replicate_inv. by vm_compute.
Defined.

(** ** Heading ids *)

Section SlugFacts.

Implicit Types (seen : gmap (list N) nat) (ms : list captures).

Lemma slugify_id seen (t : jsstring) :
  (slugify seen t).1 = deduplicated (slug_of t) (default 0 (seen !! slug_of t)).
Proof.
  unfold slugify, deduplicated. simpl.
  by destruct (default 0 (seen !! slug_of t)).
Qed.

Lemma slugify_seen seen (t : jsstring) :
  (slugify seen t).2
  = <[slug_of t := default 0 (seen !! slug_of t) + 1]> seen.
Proof. done. Qed.

Lemma collect_headings_cons seen m ms :
  collect_headings seen (m :: ms) =
  let t := heading_text (trim (group m 2)) in
  {| level := length (group m 1); text := t; id := (slugify seen t).1 |}
    :: collect_headings ((slugify seen t).2) ms.
Proof. done. Qed.

Lemma collect_headings_ids ms : forall seen i h,
  collect_headings seen ms !! i = Some h ->
  id h = deduplicated (slug_of (text h))
           (default 0 (seen !! slug_of (text h))
            + occurrences (slug_of (text h)) (take i (collect_headings seen ms))).
Proof.
  induction ms as [|m ms IH]; intros seen i h; [done|].
  rewrite collect_headings_cons. cbv zeta.
  generalize (heading_text (trim (group m 2))). intros t.
  destruct i as [|i]; cbn [lookup list_lookup take occurrences].
  - intros Heq. apply (inj Some) in Heq. subst h. cbn [text id].
    rewrite slugify_id. f_equal. lia.
  - intros Hh. rewrite (IH _ _ _ Hh). f_equal. cbn [text].
    rewrite slugify_seen.
    destruct (decide (slug_of t = slug_of (text h))) as [Heq|Hne].
    + rewrite Heq, lookup_insert_eq. cbn [default from_option Datatypes.id]. lia.
    + rewrite lookup_insert_ne by done. lia.
Qed.

End SlugFacts.

(** C3. Each call of the slug function returns the base slug when the
    registry has not seen it, the base slug with [-N] appended when this is
    its N-th occurrence (N at least 2), and counts the occurrence; so the
    i-th heading extracted from a document gets its base slug when no
    earlier heading has the same base slug, and the base slug with [-N]
    when N - 1 earlier headings have it. The document
    ["# Intro\n## Intro\n## Intro"] yields [intro], [intro-2], [intro-3]. *)
Theorem slug_deduplication :
  (forall (seen : gmap (list N) nat) (t : jsstring),
      slugify seen t =
      (deduplicated (slug_of t) (default 0 (seen !! slug_of t)),
       <[slug_of t := default 0 (seen !! slug_of t) + 1]> seen))
  /\ (forall (markdown : jsstring) (i : nat) (h : Heading),
         extractHeadings markdown !! i = Some h ->
         id h = deduplicated (slug_of (text h))
                  (occurrences (slug_of (text h))
                     (take i (extractHeadings markdown))))
  /\ map id (extractHeadings intro_document)
     = [js "intro"; js "intro-2"; js "intro-3"].
Proof.
  split_and!.
  - intros seen t. rewrite (surjective_pairing (slugify seen t)).
    by rewrite slugify_id, slugify_seen.
  - intros [|c s] i h; [done|]. unfold extractHeadings.
    intros Hh. rewrite (collect_headings_ids _ _ _ _ Hh).
    by rewrite lookup_empty.
  - by vm_compute.
Qed.

Lemma slug_deduplication_witness :
  exists h, extractHeadings intro_document !! 2 = Some h /\ id h = js "intro-3".
Proof.
  assert (H : extractHeadings intro_document !! 2
              = Some {| level := 2; text := js "Intro"; id := js "intro-3" |})
    by by vm_compute.
  eexists. split; [exact H|].
  rewrite (proj1 (proj2 slug_deduplication) _ _ _ H). by vm_compute.
Defined.

(** C1 fails on the code. The second [Intro] gets the id [intro-2], and the
    heading whose own base slug is [intro-2] is a first occurrence of that
    base slug, so it keeps it: two headings of one document share an id, in
    heading extraction and in the renderer alike. *)
Theorem heading_ids_clash :
  map id (extractHeadings clash_document)
  = [js "intro"; js "intro-2"; js "intro-2"]
  /\ ~ NoDup (map id (extractHeadings clash_document))
  /\ (render_headings ∅ clash_tokens).1
     = [heading_html 1 (js "intro") (js "Intro");
        heading_html 2 (js "intro-2") (js "Intro");
        heading_html 2 (js "intro-2") (js "Intro-2")].
Proof.
  assert (H : map id (extractHeadings clash_document)
              = [js "intro"; js "intro-2"; js "intro-2"]) by by vm_compute.
  split_and!; [done| |by vm_compute].
  rewrite H. intros Hnd.
  apply NoDup_cons in Hnd as [_ Hnd]. apply NoDup_cons in Hnd as [Hin _].
  apply Hin. left.
Qed.

(** ** Excerpts *)

Section ExcerptFacts.

Implicit Types (s content : jsstring).

Lemma trimStart_length s : length (trimStart s) <= length s.
Proof.
  induction s as [|c s IH]; simpl; [lia|]. destruct (is_space c); simpl; lia.
Qed.

Lemma trimEnd_length s : length (trimEnd s) <= length s.
Proof.
  unfold trimEnd. rewrite length_rev.
  pose proof (trimStart_length (rev s)). rewrite length_rev in *. lia.
Qed.

Lemma trimStart_head s c : head (trimStart s) = Some c -> is_space c = false.
Proof.
  induction s as [|a s IH]; simpl; [done|].
  destruct (is_space a) eqn:E; [done|]. simpl. by intros [= <-].
Qed.

Lemma last_rev_head s : last (rev s) = head s.
Proof. destruct s as [|c s]; [done|]. simpl. apply last_snoc. Qed.

Lemma trimEnd_last s c : last (trimEnd s) = Some c -> is_space c = false.
Proof.
  unfold trimEnd. rewrite last_rev_head. apply trimStart_head.
Qed.

Lemma plain_text_nil : plain_text [] = [].
Proof. by vm_compute. Qed.

Lemma generateExcerpt_cases content maxLength :
  generateExcerpt content maxLength =
  if (Z.of_nat (length (plain_text content)) <=? maxLength)%Z
  then plain_text content
  else if bool_decide (content = []) then []
  else trimEnd (slice0 (plain_text content) maxLength) ++ js "...".
Proof.
  destruct content as [|c s]; [|done].
  rewrite plain_text_nil. rewrite bool_decide_eq_true_2 by done.
  by destruct (Z.of_nat (length (@nil N)) <=? maxLength)%Z.
Qed.

End ExcerptFacts.

(** C5, as stated, fails. The ellipsis marker is the three code units
    ["..."], so 161 letters cut at 160 give 163 code units, more than
    max + 1; and the cut is made at [maxLength] wherever that falls, here
    inside the word [world]. *)
Lemma generateExcerpt_exceeds_bound :
  length (plain_text (replicate 161 0x61%N)) = 161
  /\ length (generateExcerpt_default (replicate 161 0x61%N)) = 163
  /\ ~ (length (generateExcerpt_default (replicate 161 0x61%N)) <= 160 + 1)
  /\ generateExcerpt (js "hello world") 8 = js "hello wo...".
Proof.
  assert (H : length (generateExcerpt_default (replicate 161 0x61%N)) = 163)
    by by vm_compute.
  split_and!; [by vm_compute|done| |by vm_compute].
  rewrite H. lia.
Qed.

(** C5, amended. When the plain text is no longer than [maxLength],
    [generateExcerpt] returns it verbatim, without ellipsis. When it is
    longer (and [maxLength] is not negative), the result is the first
    [maxLength] code units of the plain text, with trailing white space
    removed, followed by the marker ["..."]: it ends in the marker and has
    at most [maxLength + 3] code units. *)
Theorem generateExcerpt_truncation (content : jsstring) (maxLength : Z) :
  ((Z.of_nat (length (plain_text content)) <= maxLength)%Z ->
   generateExcerpt content maxLength = plain_text content)
  /\ ((0 <= maxLength < Z.of_nat (length (plain_text content)))%Z ->
      exists cut : jsstring,
        cut = trimEnd (take (Z.to_nat maxLength) (plain_text content))
        /\ generateExcerpt content maxLength = cut ++ js "..."
        /\ (forall c, last cut = Some c -> is_space c = false)
        /\ (Z.of_nat (length (generateExcerpt content maxLength))
            <= maxLength + 3)%Z).
Proof.
  rewrite generateExcerpt_cases. split.
  - intros H. apply Z.leb_le in H. by rewrite H.
  - intros [H0 H]. eexists. split; [reflexivity|].
    assert (Hc : bool_decide (content = []) = false).
    { apply bool_decide_eq_false. intros ->. rewrite plain_text_nil in H.
      simpl in H. lia. }
    assert (Hleb : (Z.of_nat (length (plain_text content)) <=? maxLength)%Z = false)
      by (apply Z.leb_gt; lia).
    rewrite Hleb, Hc.
    assert (Hs : slice0 (plain_text content) maxLength
                 = take (Z.to_nat maxLength) (plain_text content)).
    { unfold slice0. assert (Hneg : (maxLength <? 0)%Z = false) by (apply Z.ltb_ge; lia).
      rewrite Hneg. by rewrite Z.min_l by lia. }
    rewrite Hs. split_and!; [done|apply trimEnd_last|].
    rewrite length_app.
    pose proof (trimEnd_length (take (Z.to_nat maxLength) (plain_text content))) as Ht.
    rewrite length_take in Ht.
    change (length (js "...")) with 3. lia.
Qed.

Lemma generateExcerpt_truncation_witness :
  generateExcerpt (js "# Tea **bowls**") 160 = js "Tea bowls"
  /\ generateExcerpt (js "hello world") 6 = js "hello...".
Proof.
  split.
  - rewrite (proj1 (generateExcerpt_truncation (js "# Tea **bowls**") 160)).
    + by vm_compute.
    + by vm_compute.
  - destruct (proj2 (generateExcerpt_truncation (js "hello world") 6))
      as (cut & Hcut & Hex & _).
    + by vm_compute.
    + rewrite Hex, Hcut. by vm_compute.
Defined.

(** ** parseMarkdown *)

(** C9. [parseMarkdown] never throws, and when the Markdown engine throws
    it returns the Markdown input unchanged. *)
Theorem parseMarkdown_never_throws (marked : Marked) (markdown : jsstring) :
  (exists out, parseMarkdown marked markdown = Return out)
  /\ (forall error, engine_call marked markdown = Throw error ->
                    parseMarkdown marked markdown = Return markdown).
Proof.
  unfold parseMarkdown, engine_call. destruct markdown as [|c s].
  - split; [by eexists|done].
  - destruct (match marked_parse marked with
              | Some parse => parse (c :: s)
              | None => marked_call marked (c :: s)
              end) as [html|e]; simpl.
    + split; [by eexists|done].
    + split; [by eexists|done].
Qed.

Lemma parseMarkdown_never_throws_witness :
  parseMarkdown failing_marked (js "# Intro") = Return (js "# Intro").
Proof.
  apply (proj2 (parseMarkdown_never_throws failing_marked (js "# Intro"))
           (js "boom")).
  by vm_compute.
Defined.

(* ===================================================================== *)
(** * Properties of the content fetch layer *)
(* ===================================================================== *)

Section RequestLocale.

Implicit Types (fetch : transport) (body : value) (locale s : jsstring).

(** *** Conversion to well-formed Unicode *)

Lemma toWellFormed_well_formed s : well_formed s = true -> toWellFormed s = s.
Proof.
  remember (length s) as n eqn:Hn. revert s Hn.
  induction n as [n IH] using lt_wf_ind. intros [|c s] Hn; [done|].
  cbn [well_formed toWellFormed]. destruct (is_high_surrogate c).
  - destruct s as [|d s]; [done|]. destruct (is_low_surrogate d); [|done].
    cbn [andb]. intros H. do 2 f_equal.
    apply (IH (length s)); [subst n; cbn [length]; lia|done|done].
  - destruct (is_low_surrogate c); [done|]. cbn [negb andb]. intros H. f_equal.
    apply (IH (length s)); [subst n; cbn [length]; lia|done|done].
Qed.


Lemma digits_well_formed d : well_formed (digits d) = true.
Proof. induction d; [done|..]; exact IHd. Qed.

Lemma toWellFormed_toString n : toWellFormed (toString n) = toString n.
Proof. apply toWellFormed_well_formed, digits_well_formed. Qed.

(** *** The locale of the three requests *)




(** *** The entries of a response body *)

Lemma as_array_normalize d :
  (forall items, d <> VArr items) ->
  as_array (normalize d) = if truthy d then [normalize d] else [].
Proof.
  intros Hd. destruct (truthy d) eqn:Ht.
  - destruct (is_entity d) eqn:He.
    + by rewrite normalize_entity.
    + rewrite normalize_not_entity by done.
      destruct d; simpl in *; try done; try by rewrite Ht.
      by destruct (Hd items).
  - by rewrite normalize_falsy.
Qed.

(** The entries that a response body yields. *)
Lemma normalized_entries body :
  as_array (data (normalizeResponse body))
  = match get_opt body (js "data") with
    | VArr items => map normalize items
    | d => if truthy d then [normalize d] else []
    end.
Proof.
  unfold normalizeResponse. cbn [data].
  destruct (get_opt body (js "data")) eqn:E; try done;
    by rewrite as_array_normalize.
Qed.

Lemma normalized_entries_of body :
  as_array (data (normalizeResponse body)) = map normalize (entries_of body).
Proof.
  rewrite normalized_entries. unfold entries_of.
  destruct (get_opt body (js "data")) as [| |b|n|s|items|props]; try done.
  - by destruct b.
  - simpl. by destruct (negb _).
  - by destruct s.
Qed.

Lemma as_array_entries_truthy body x :
  x ∈ as_array (data (normalizeResponse body)) -> x = VNull \/ truthy x = true.
Proof.
  rewrite normalized_entries.
  assert (Hsingle : forall d, x ∈ (if truthy d then [normalize d] else []) ->
                              x = VNull \/ truthy x = true).
  { intros d. destruct (truthy d); [|by intros ?%elem_of_nil].
    intros ->%list_elem_of_singleton. apply normalize_null_or_truthy. }
  destruct (get_opt body (js "data")) as [| | | | |items|] eqn:E; cbv zeta;
    try apply Hsingle.
  intros (y & -> & _)%list_elem_of_fmap. apply normalize_null_or_truthy.
Qed.

(** *** The three operations on a failed and on a successful fetch *)

Lemma fetchArticles_on_failure fetch locale filters sort pageSize :
  failed (fetch (articles_request locale filters sort pageSize)) ->
  fetchArticles fetch locale filters sort pageSize
  = Return {| data := []; meta := VObj [] |}.
Proof.
  intros Hf. unfold fetchArticles.
  destruct (fetch _) as [res|e]; cbn [failed bind try_catch] in *; [|done].
  by rewrite Hf.
Qed.

Lemma fetchArticle_on_failure fetch slug locale :
  failed (fetch (article_request slug locale)) ->
  fetchArticle fetch slug locale = Return VNull.
Proof.
  intros Hf. unfold fetchArticle.
  destruct (fetch _) as [res|e]; cbn [failed bind try_catch] in *; [|done].
  by rewrite Hf.
Qed.

Lemma fetchCategories_on_failure fetch locale :
  failed (fetch (categories_request locale)) ->
  fetchCategories fetch locale = Return (VObj [(js "data", VArr [])]).
Proof.
  intros Hf. unfold fetchCategories.
  destruct (fetch _) as [res|e]; cbn [failed bind try_catch] in *; [|done].
  by rewrite Hf.
Qed.

Lemma fetchArticles_on_success fetch locale filters sort pageSize body :
  succeeded (fetch (articles_request locale filters sort pageSize)) body ->
  fetchArticles fetch locale filters sort pageSize
  = Return {| data := map normalize (entries_of body);
              meta := get_opt body (js "meta") |}.
Proof.
  intros (res & Hf & Hok & Hj). unfold fetchArticles. rewrite Hf.
  cbn [bind try_catch]. rewrite Hok, Hj. cbn [negb bind try_catch].
  by rewrite normalized_entries_of.
Qed.

Lemma fetchArticle_on_success fetch slug locale body :
  succeeded (fetch (article_request slug locale)) body ->
  fetchArticle fetch slug locale
  = Return (nullish (default VUndefined (head (map normalize (entries_of body))))
              VNull).
Proof.
  intros (res & Hf & Hok & Hj). unfold fetchArticle. rewrite Hf.
  cbn [bind try_catch]. rewrite Hok, Hj. cbn [negb bind try_catch].
  by rewrite normalized_entries_of.
Qed.

Lemma fetchCategories_on_success fetch locale body :
  succeeded (fetch (categories_request locale)) body ->
  fetchCategories fetch locale
  = Return (VObj [(js "data", VArr (map normalize (entries_of body)));
                  (js "meta", get_opt body (js "meta"))]).
Proof.
  intros (res & Hf & Hok & Hj). unfold fetchCategories. rewrite Hf.
  cbn [bind try_catch]. rewrite Hok, Hj. cbn [negb bind try_catch].
  by rewrite normalized_entries_of.
Qed.



End RequestLocale.




(** An empty collection that comes with its pagination is returned with
    that [meta], where a failed fetch returns [meta: {}]: the two results
    have the same [data] and differ in [meta]. *)
Example empty_page_keeps_meta :
  fetchArticles (fun _ => Return (ok_response empty_page_body))
    (js "en") [] (js "publishedAt:desc") 50
  = Return {| data := [];
              meta := VObj [(js "pagination", VObj [(js "total", VNum 0)])] |}.
Proof. by vm_compute. Qed.

(** C7. A content-fetch operation never throws. When the transport fails or
    the status is not a success, [fetchArticles] and [fetchCategories]
    return an empty [data] list and [fetchArticle] returns [null]. A
    caller cannot tell that from an empty result: for every successful
    response whose body holds no entry, [fetchArticles] and
    [fetchCategories] return the same, empty, [data], and [fetchArticle]
    returns the same [null]. *)
Theorem fetch_soft_fail (fetch : transport) :
  (forall locale filters sort pageSize,
      exists r, fetchArticles fetch locale filters sort pageSize = Return r)
  /\ (forall slug locale, exists r, fetchArticle fetch slug locale = Return r)
  /\ (forall locale, exists r, fetchCategories fetch locale = Return r)
  /\ (forall locale filters sort pageSize,
         failed (fetch (articles_request locale filters sort pageSize)) ->
         fetchArticles fetch locale filters sort pageSize
         = Return {| data := []; meta := VObj [] |})
  /\ (forall slug locale,
         failed (fetch (article_request slug locale)) ->
         fetchArticle fetch slug locale = Return VNull)
  /\ (forall locale,
         failed (fetch (categories_request locale)) ->
         fetchCategories fetch locale = Return (VObj [(js "data", VArr [])]))
  /\ (forall (fetch' : transport) locale filters sort pageSize body,
         failed (fetch (articles_request locale filters sort pageSize)) ->
         succeeded (fetch' (articles_request locale filters sort pageSize)) body ->
         entries_of body = [] ->
         exists r r',
           fetchArticles fetch locale filters sort pageSize = Return r
           /\ fetchArticles fetch' locale filters sort pageSize = Return r'
           /\ data r = [] /\ data r' = [])
  /\ (forall (fetch' : transport) slug locale body,
         failed (fetch (article_request slug locale)) ->
         succeeded (fetch' (article_request slug locale)) body ->
         entries_of body = [] ->
         fetchArticle fetch slug locale = Return VNull
         /\ fetchArticle fetch' slug locale = Return VNull)
  /\ (forall (fetch' : transport) locale body,
         failed (fetch (categories_request locale)) ->
         succeeded (fetch' (categories_request locale)) body ->
         entries_of body = [] ->
         exists r r',
           fetchCategories fetch locale = Return r
           /\ fetchCategories fetch' locale = Return r'
           /\ get_prop r (js "data") = VArr []
           /\ get_prop r' (js "data") = VArr []).
Proof.
  split_and!.
  - intros locale filters sort pageSize. unfold fetchArticles.
    destruct (fetch _) as [res|e]; simpl; [|by eexists].
    destruct (ok res); simpl; [|by eexists].
    destruct (json res); simpl; by eexists.
  - intros slug locale. unfold fetchArticle.
    destruct (fetch _) as [res|e]; simpl; [|by eexists].
    destruct (ok res); simpl; [|by eexists].
    destruct (json res); simpl; by eexists.
  - intros locale. unfold fetchCategories.
    destruct (fetch _) as [res|e]; simpl; [|by eexists].
    destruct (ok res); simpl; [|by eexists].
    destruct (json res); simpl; by eexists.
  - intros locale filters sort pageSize. apply fetchArticles_on_failure.
  - intros slug locale. apply fetchArticle_on_failure.
  - intros locale. apply fetchCategories_on_failure.
  - intros fetch' locale filters sort pageSize body Hf Hs He.
    rewrite (fetchArticles_on_failure fetch) by done.
    rewrite (fetchArticles_on_success fetch' _ _ _ _ body) by done.
    rewrite He. by eexists _, _.
  - intros fetch' slug locale body Hf Hs He.
    rewrite (fetchArticle_on_failure fetch) by done.
    rewrite (fetchArticle_on_success fetch' _ _ body) by done.
    by rewrite He.
  - intros fetch' locale body Hf Hs He.
    rewrite (fetchCategories_on_failure fetch) by done.
    rewrite (fetchCategories_on_success fetch' _ body) by done.
    rewrite He. eexists _, _. split_and!; [done|done|by vm_compute|by vm_compute].
Qed.

Lemma fetch_soft_fail_witness :
  fetchArticles_default network_down = Return {| data := []; meta := VObj [] |}
  /\ fetchArticle server_error (js "tea") (js "en") = Return VNull
  /\ fetchCategories server_error (js "ja") = Return (VObj [(js "data", VArr [])])
  /\ (exists r r',
        fetchArticles network_down (js "en") [] (js "publishedAt:desc") 50 = Return r
        /\ fetchArticles (fun _ => Return (ok_response empty_page_body))
             (js "en") [] (js "publishedAt:desc") 50 = Return r'
        /\ data r = [] /\ data r' = []).
Proof.
  split_and!.
  - apply (fetch_soft_fail network_down). by vm_compute.
  - apply (fetch_soft_fail server_error). by vm_compute.
  - apply (fetch_soft_fail server_error). by vm_compute.
  - destruct (fetch_soft_fail network_down) as (_ & _ & _ & _ & _ & _ & H & _).
    apply (H (fun _ => Return (ok_response empty_page_body))
             (js "en") [] (js "publishedAt:desc") 50 empty_page_body).
    + by vm_compute.
    + by eexists.
    + by vm_compute.
Defined.

(* ===================================================================== *)
(** * Properties of the UI strings *)
(* ===================================================================== *)

Lemma ui_entries_ok :
  forallb (fun locale => forallb (ui_entry_ok locale) ui_keys) locales = true.
Proof. by vm_compute. Qed.

(** C10. For each of the eight locales and every UI key, [t] returns a
    string; for the six locales other than ['en'] and ['ja'] it is the
    English string. *)
Theorem t_defined (locale key : jsstring) :
  locale ∈ locales -> key ∈ ui_keys ->
  (exists s, t locale key = Some s)
  /\ (locale <> js "en" -> locale <> js "ja" -> t locale key = t (js "en") key).
Proof.
  intros Hl%list_elem_of_In Hk%list_elem_of_In.
  pose proof ui_entries_ok as H.
  rewrite forallb_forall in H. specialize (H locale Hl).
  rewrite forallb_forall in H. specialize (H key Hk).
  unfold ui_entry_ok in H. destruct (t locale key) as [s|]; [|done].
  split; [by eexists|]. intros Hen Hja.
  rewrite !str_eqb_ne in H by done. simpl in H.
  by apply bool_decide_eq_true in H.
Qed.

Lemma t_defined_witness :
  (exists s, t (js "de") (js "nav.home") = Some s)
  /\ t (js "de") (js "nav.home") = t (js "en") (js "nav.home").
Proof.
  destruct (t_defined (js "de") (js "nav.home")) as [H1 H2].
  - apply list_elem_of_In. vm_compute. tauto.
  - apply list_elem_of_In. vm_compute. tauto.
  - split; [done|]. apply H2; by vm_compute.
Defined.

(* ===================================================================== *)
(** * Further properties of the Markdown pipeline *)
(* ===================================================================== *)

(** ** The replacements of the slug function *)

Section ReplaceFacts.

Implicit Types (p q : N -> bool) (s : jsstring) (prev : option N).

Lemma exec_class p prev s :
  exec (Class p) prev s =
  match s with
  | [] => None
  | c :: _ => if p c then Some (1, []) else None
  end.
Proof.
  unfold exec. simpl. destruct s as [|c s]; [done|].
  destruct (p c); [|done]. do 2 f_equal. simpl. lia.
Qed.

(** Replacing a single class by nothing filters the string. *)
Lemma replace_class p s : forall prev,
  replace_loop (Class p) [] prev s 0 = List.filter (fun c => negb (p c)) s.
Proof.
  induction s as [|c s IH]; intros prev; [done|].
  cbn [replace_loop]. rewrite exec_class. simpl.
  destruct (p c); simpl; by rewrite IH.
Qed.

Lemma squeeze_run_zero p h s b :
  run_length p s = 0 -> squeeze p h b s = squeeze p h false s.
Proof.
  destruct s as [|c s]; [done|]. simpl. by destruct (p c).
Qed.

(** Replacing [p+] by one code unit squeezes the runs. *)
Lemma replace_plus_loop p h s : forall prev skip,
  skip = 0 \/ skip = run_length p s ->
  replace_loop (plus p) [RLit [h]] prev s skip
  = squeeze p h (negb (Nat.eqb skip 0)) s.
Proof.
  induction s as [|c s IH]; intros prev skip Hskip.
  - cbn [replace_loop]. destruct skip; [|done]. by rewrite exec_plus.
  - cbn [replace_loop]. destruct skip as [|n].
    + rewrite exec_plus. simpl. destruct (p c); simpl.
      * f_equal. rewrite IH by (by right).
        destruct (run_length p s) eqn:E; [|done].
        simpl. symmetry. by apply squeeze_run_zero.
      * f_equal. rewrite IH by (by left). done.
    + destruct Hskip as [|Hskip]; [done|]. simpl in Hskip.
      destruct (p c) eqn:Hp; [|done]. injection Hskip as ->.
      simpl. rewrite Hp. rewrite IH by (by right).
      destruct (run_length p s) eqn:E; [|done].
      simpl. symmetry. by apply squeeze_run_zero.
Qed.

Lemma replace_plus p h s :
  replace_all (plus p) [RLit [h]] s = squeeze p h false s.
Proof. unfold replace_all. rewrite replace_plus_loop by (by left). done. Qed.

Lemma exec_edge_hyphen prev s :
  exec edge_hyphen prev s =
  match s with
  | [] => None
  | c :: s' =>
      if is_hyphen c then
        match prev, s' with
        | None, _ => Some (1, [])
        | Some _, [] => Some (1, [])
        | Some _, _ :: _ => None
        end
      else None
  end.
Proof.
  unfold exec, edge_hyphen, is_hyphen, chr. cbn [rmatch].
  change (N_of_ascii "-"%char) with 45%N.
  destruct s as [|c s']; [by destruct prev|].
  rewrite (N.eqb_sym c). destruct (45 =? c)%N; [|by destruct prev].
  destruct prev as [c0|]; cbn [at_start andb].
  - destruct s' as [|d s']; cbn [at_end andb]; [|done].
    do 2 f_equal; simpl; lia.
  - do 2 f_equal; simpl; lia.
Qed.

Lemma replace_edge_hyphen_inner s : forall c0,
  replace_loop edge_hyphen [] (Some c0) s 0 = drop_last_if is_hyphen s.
Proof.
  induction s as [|c s IH]; intros c0; [done|].
  cbn [replace_loop]. rewrite exec_edge_hyphen.
  destruct (is_hyphen c) eqn:Hc; simpl.
  - destruct s as [|d s]; simpl.
    + by rewrite Hc.
    + f_equal. apply IH.
  - rewrite IH. destruct s; simpl; [by rewrite Hc|done].
Qed.

Lemma replace_edge_hyphen s :
  replace_all edge_hyphen [] s =
  drop_last_if is_hyphen
    (match s with
     | [] => []
     | c :: s' => if is_hyphen c then s' else s
     end).
Proof.
  unfold replace_all. destruct s as [|c s]; [done|].
  cbn [replace_loop]. rewrite exec_edge_hyphen.
  destruct (is_hyphen c) eqn:Hc; simpl.
  - apply replace_edge_hyphen_inner.
  - rewrite replace_edge_hyphen_inner. destruct s; simpl; [by rewrite Hc|done].
Qed.

End ReplaceFacts.

Section SlugShape.

Implicit Types (p q : N -> bool) (s t : jsstring).

Lemma slice0_take s (e : Z) : (0 <= e)%Z -> slice0 s e = take (Z.to_nat e) s.
Proof.
  intros He. unfold slice0.
  assert (Hneg : (e <? 0)%Z = false) by (apply Z.ltb_ge; lia). rewrite Hneg.
  destruct (Z.le_ge_cases e (Z.of_nat (length s))).
  - by rewrite Z.min_l by lia.
  - rewrite Z.min_r by lia. rewrite Nat2Z.id.
    rewrite firstn_all. symmetry. apply take_ge. lia.
Qed.

Lemma lower_unit_no_upper c : Forall (fun d => is_upper d = false) (lower_unit c).
Proof.
  unfold lower_unit, is_upper.
  destruct (N.leb_spec 0x41 c), (N.leb_spec c 0x5A); simpl.
  - repeat constructor. apply andb_false_iff. right. apply N.leb_gt. lia.
  - destruct (c =? 0x212A)%N; [by repeat constructor|].
    destruct (c =? 0x0130)%N; [by repeat constructor|].
    repeat constructor. apply andb_false_iff. right. apply N.leb_gt. lia.
  - destruct (c =? 0x212A)%N; [by repeat constructor|].
    destruct (c =? 0x0130)%N; [by repeat constructor|].
    repeat constructor. apply andb_false_iff. left. apply N.leb_gt. lia.
  - lia.
Qed.

Lemma toLowerCase_no_upper s : Forall (fun d => is_upper d = false) (toLowerCase s).
Proof.
  unfold toLowerCase. induction s as [|c s IH]; simpl; [constructor|].
  apply Forall_app. split; [apply lower_unit_no_upper|done].
Qed.

Lemma filter_Forall_keep (P : N -> Prop) (f : N -> bool) s :
  Forall P s -> Forall (fun c => P c /\ f c = true) (List.filter f s).
Proof.
  induction 1 as [|c s Hc Hs IH]; simpl; [constructor|].
  destruct (f c) eqn:E; [constructor|]; done.
Qed.

(** A code unit that the strip keeps, that is not upper case and not white
    space, is a slug code unit. *)
Lemma kept_is_slug_char c :
  negb (slug_strip_class c) = true -> is_upper c = false ->
  is_space c = false -> is_slug_char c = true.
Proof.
  unfold slug_strip_class, is_word, is_upper, is_slug_char.
  rewrite negb_involutive. intros Hk Hu Hs. rewrite Hu, Hs in Hk.
  rewrite !orb_false_r in Hk. done.
Qed.

Lemma squeeze_elem p h s : forall b c,
  c ∈ squeeze p h b s -> c = h \/ (c ∈ s /\ p c = false).
Proof.
  induction s as [|a s IH]; intros b c; simpl; [by intros ?%elem_of_nil|].
  destruct (p a) eqn:Ha.
  - destruct b.
    + intros [?|[? ?]]%IH; [by left|]. right. split; [by right|done].
    + intros [->|Hin]%elem_of_cons; [by left|].
      apply IH in Hin as [?|[? ?]]; [by left|]. right. split; [by right|done].
  - intros [->|Hin]%elem_of_cons; [right; split; [left|done]|].
    apply IH in Hin as [?|[? ?]]; [by left|]. right. split; [by right|done].
Qed.

Lemma squeeze_no_adjacent p h s : forall b,
  p h = true ->
  no_adjacent p (squeeze p h b s)
  /\ (b = true -> forall c, head (squeeze p h b s) = Some c -> p c = false).
Proof.
  intros b Hh. revert b. induction s as [|a s IH]; intros b; simpl; [done|].
  destruct (p a) eqn:Ha.
  - destruct (IH true) as [Hn Hd]. destruct b.
    + split; [done|]. intros _. by apply Hd.
    + split; [|done]. simpl. split; [|done].
      destruct (squeeze p h true s) as [|d r] eqn:E; [done|].
      rewrite (Hd eq_refl d) by done. apply andb_false_r.
  - destruct (IH false) as [Hn _]. split.
    + simpl. split; [|done]. destruct (squeeze p h false s); [done|].
      by rewrite Ha.
    + intros _ c [= <-]. done.
Qed.

Lemma no_adjacent_app_l q s t : no_adjacent q (s ++ t) -> no_adjacent q s.
Proof.
  induction s as [|c s IH]; simpl; [done|]. intros [H1 H2]. split; [|auto].
  destruct s as [|d s]; [done|]. done.
Qed.

Lemma drop_last_if_prefix q s : exists t, s = drop_last_if q s ++ t.
Proof.
  induction s as [|c s IH]; [by exists []|]. simpl.
  destruct s as [|d s].
  - destruct (q c); [by exists [c]|by exists []].
  - destruct IH as [t Ht]. exists t. simpl. f_equal. exact Ht.
Qed.

Lemma drop_last_if_head q s c :
  head (drop_last_if q s) = Some c -> head s = Some c.
Proof.
  destruct s as [|a s]; [done|]. simpl. destruct s; [|done].
  by destruct (q a).
Qed.

Lemma prefix_Forall (P : N -> Prop) s t : Forall P (s ++ t) -> Forall P s.
Proof. by intros [? ?]%Forall_app. Qed.

(** The chain of replacements of [slug_base], in terms of lists. *)
Lemma slug_base_unfold text :
  slug_base text =
  take 50
    (drop_last_if is_hyphen
       (match squeeze is_hyphen 0x2D false
                (squeeze is_space 0x2D false
                   (List.filter (fun c => negb (slug_strip_class c))
                      (toLowerCase (trim text)))) with
        | [] => []
        | c :: s' => if is_hyphen c then s' else c :: s'
        end)).
Proof.
  unfold slug_base. rewrite slice0_take by lia.
  change (Z.to_nat 50) with 50.
  change (js "-") with [0x2D%N].
  rewrite replace_edge_hyphen, !replace_plus.
  unfold replace_all. rewrite replace_class.
  by destruct (squeeze is_hyphen 45 false _).
Qed.

Lemma slug_base_shape text :
  Forall (fun c => is_slug_char c = true) (slug_base text)
  /\ no_adjacent is_hyphen (slug_base text)
  /\ (forall c, head (slug_base text) = Some c -> is_hyphen c = false)
  /\ length (slug_base text) <= 50.
Proof.
  rewrite slug_base_unfold.
  set (kept := List.filter (fun c => negb (slug_strip_class c))
                 (toLowerCase (trim text))).
  set (dashed := squeeze is_space 0x2D false kept).
  set (single := squeeze is_hyphen 0x2D false dashed).
  set (inner := match single with
                | [] => []
                | c :: s' => if is_hyphen c then s' else c :: s'
                end).
  assert (Hkept : Forall (fun c => is_upper c = false
                                   /\ negb (slug_strip_class c) = true) kept).
  { apply filter_Forall_keep, toLowerCase_no_upper. }
  assert (Hdashed : Forall (fun c => is_slug_char c = true) dashed).
  { apply Forall_forall. intros c [->|[Hc Hs]]%squeeze_elem; [done|].
    rewrite Forall_forall in Hkept. destruct (Hkept c Hc).
    by apply kept_is_slug_char. }
  assert (Hsingle : Forall (fun c => is_slug_char c = true) single).
  { apply Forall_forall. intros c [->|[Hc Hs]]%squeeze_elem; [done|].
    rewrite Forall_forall in Hdashed. by apply Hdashed. }
  destruct (squeeze_no_adjacent is_hyphen 0x2D dashed false eq_refl) as [Hadj _].
  fold single in Hadj.
  assert (Hinner : Forall (fun c => is_slug_char c = true) inner
                   /\ no_adjacent is_hyphen inner
                   /\ (forall c, head inner = Some c -> is_hyphen c = false)).
  { unfold inner. destruct single as [|c s']; [done|].
    apply Forall_cons in Hsingle as [Hc Hs']. destruct Hadj as [Hcd Hadj].
    destruct (is_hyphen c) eqn:Hhc.
    - split_and!; [done|done|]. intros d Hd. destruct s'; [done|].
      injection Hd as ->. done.
    - split_and!.
      + by constructor.
      + simpl. split; [|done]. destruct s'; [done|]. by rewrite Hhc.
      + by intros d [= <-]. }
  destruct Hinner as (Hi1 & Hi2 & Hi3).
  destruct (drop_last_if_prefix is_hyphen inner) as [t Ht].
  set (cut := drop_last_if is_hyphen inner) in *.
  assert (Hcut : Forall (fun c => is_slug_char c = true) cut
                 /\ no_adjacent is_hyphen cut).
  { rewrite Ht in Hi1, Hi2. split.
    - by eapply prefix_Forall.
    - by eapply no_adjacent_app_l. }
  destruct Hcut as [Hc1 Hc2]. split_and!.
  - by apply Forall_take.
  - rewrite <- (take_drop 50 cut) in Hc2. by eapply no_adjacent_app_l.
  - intros c Hc. apply Hi3. apply (drop_last_if_head is_hyphen).
    fold cut. destruct cut; [done|]. done.
  - rewrite length_take. lia.
Qed.

End SlugShape.

(** X1. Every slug is made of at most 50 code units taken from [a-z],
    [0-9], [_], Hiragana, Katakana, CJK ideographs and the hyphen: it holds
    no white space and no upper-case letter. It is never empty, never
    starts with a hyphen and never holds two hyphens in a row. *)
Theorem slug_of_shape (text : jsstring) :
  slug_of text <> []
  /\ length (slug_of text) <= 50
  /\ Forall (fun c => is_slug_char c = true) (slug_of text)
  /\ no_adjacent is_hyphen (slug_of text)
  /\ (forall c, head (slug_of text) = Some c -> is_hyphen c = false).
Proof.
  destruct (slug_base_shape text) as (H1 & H2 & H3 & H4).
  unfold slug_of. destruct (slug_base text) as [|c s] eqn:E.
  - clear. split_and!.
    + by vm_compute.
    + vm_compute. lia.
    + apply Forall_forall. intros c Hc%list_elem_of_In.
      by apply (proj1 (forallb_forall is_slug_char (js "section"))); [vm_compute|].
    + vm_compute. repeat split.
    + intros c [= <-]. by vm_compute.
  - split_and!; done.
Qed.

(** ** Headings *)

Section HeadingFacts.

Implicit Types (seen : gmap (list N) nat) (ms : list captures) (s t : jsstring).

Lemma digits_inj d : forall d', digits d = digits d' -> d = d'.
Proof.
  induction d; intros d'; destruct d'; simpl; try discriminate;
    first [ done | intros [= H]; f_equal; auto ].
Qed.

Lemma toString_inj n m : toString n = toString m -> n = m.
Proof.
  unfold toString. intros H%digits_inj. by apply Unsigned.to_uint_inj.
Qed.

(** Different numbers of earlier occurrences give different ids. *)
Lemma deduplicated_inj slug a b :
  deduplicated slug a = deduplicated slug b -> a = b.
Proof.
  unfold deduplicated. change (js "-") with [0x2D%N].
  destruct a as [|a], b as [|b]; [done| | |].
  - intros H%(f_equal (@length N)). rewrite length_app in H. simpl in H. lia.
  - intros H%(f_equal (@length N)). rewrite length_app in H. simpl in H. lia.
  - intros H%app_inv_head. injection H as H. apply toString_inj in H. lia.
Qed.

Lemma occurrences_take_lt slug (hs : list Heading) : forall i j h,
  i < j -> hs !! i = Some h -> slug_of (text h) = slug ->
  occurrences slug (take i hs) < occurrences slug (take j hs).
Proof.
  induction hs as [|h0 hs IH]; intros i j h Hij Hi Hs; [done|].
  destruct j as [|j]; [lia|]. destruct i as [|i].
  - cbn [lookup list_lookup] in Hi. apply (inj Some) in Hi. subst h0.
    cbn [take occurrences]. rewrite decide_True by done. lia.
  - cbn [lookup list_lookup] in Hi. cbn [take occurrences].
    specialize (IH i j h ltac:(lia) Hi Hs). lia.
Qed.

Lemma extractHeadings_ids markdown i h :
  extractHeadings markdown !! i = Some h ->
  id h = deduplicated (slug_of (text h))
           (occurrences (slug_of (text h)) (take i (extractHeadings markdown))).
Proof.
  destruct markdown as [|c s]; [done|]. unfold extractHeadings.
  intros Hh. rewrite (collect_headings_ids _ _ _ _ Hh).
  by rewrite lookup_empty.
Qed.

Lemma heading_token seen l t :
  heading seen (TokenArgs (Some l) (Some t))
  = (heading_html l (slugify seen t).1 t, (slugify seen t).2).
Proof.
  unfold heading. cbn [default from_option Datatypes.id].
  by destruct (slugify seen t).
Qed.

Lemma render_headings_cons seen tok toks :
  render_headings seen (tok :: toks)
  = ((heading seen tok).1 :: (render_headings (heading seen tok).2 toks).1,
     (render_headings (heading seen tok).2 toks).2).
Proof.
  cbn [render_headings]. destruct (heading seen tok) as [html seen'].
  cbn [fst snd]. by destruct (render_headings seen' toks).
Qed.

End HeadingFacts.

(** X2. Two headings of a document that have the same base slug never get
    the same id. *)
Theorem same_base_ids_distinct (markdown : jsstring) (i j : nat) (hi hj : Heading) :
  i <> j ->
  extractHeadings markdown !! i = Some hi ->
  extractHeadings markdown !! j = Some hj ->
  slug_of (text hi) = slug_of (text hj) ->
  id hi <> id hj.
Proof.
  assert (Hlt : forall i j hi hj,
             i < j ->
             extractHeadings markdown !! i = Some hi ->
             extractHeadings markdown !! j = Some hj ->
             slug_of (text hi) = slug_of (text hj) ->
             id hi <> id hj).
  { clear. intros i j hi hj Hij Hi Hj Hs.
    rewrite (extractHeadings_ids _ _ _ Hi), (extractHeadings_ids _ _ _ Hj).
    rewrite <- Hs. intros Heq%deduplicated_inj.
    pose proof (occurrences_take_lt (slug_of (text hi)) _ i j hi Hij Hi eq_refl).
    lia. }
  intros Hij Hi Hj Hs. destruct (Nat.lt_total i j) as [?|[?|?]]; [eauto|done|].
  intros Heq. by eapply (Hlt j i hj hi).
Qed.

Lemma same_base_ids_distinct_witness :
  exists hi hj,
    extractHeadings clash_document !! 0 = Some hi
    /\ extractHeadings clash_document !! 1 = Some hj
    /\ id hi <> id hj.
Proof.
  assert (H0 : extractHeadings clash_document !! 0
               = Some {| level := 1; text := js "Intro"; id := js "intro" |})
    by by vm_compute.
  assert (H1 : extractHeadings clash_document !! 1
               = Some {| level := 2; text := js "Intro"; id := js "intro-2" |})
    by by vm_compute.
  eexists _, _. split_and!; [exact H0|exact H1|].
  apply (same_base_ids_distinct clash_document 0 1 _ _ ltac:(lia) H0 H1).
  by vm_compute.
Defined.

Section HeadingMatchFacts.

Implicit Types (p : N -> bool) (rest s : jsstring) (prev : option N).

(** What a greedy quantifier has taken when the match succeeds. *)
Lemma quant_greedy_taken {A : Type} p rest : forall lo hi prev
    (k : option N -> jsstring -> option A) a,
  quant_greedy p lo hi prev rest k = Some a ->
  exists prev' n,
    k prev' (drop n rest) = Some a
    /\ lo <= n <= length rest
    /\ (forall h, hi = Some h -> n <= h)
    /\ Forall (fun c => p c = true) (take n rest).
Proof.
  induction rest as [|c rest IH]; intros lo hi prev k a.
  - cbn [quant_greedy]. destruct (hi_zero hi), (Nat.eqb_spec lo 0); try done;
      intros H; exists prev, 0; subst; simpl; split_and!;
      try done; try lia; try constructor.
  - cbn [quant_greedy].
    assert (Hstop : (if Nat.eqb lo 0 then k prev (c :: rest) else None) = Some a ->
              exists prev' n,
                k prev' (drop n (c :: rest)) = Some a
                /\ lo <= n <= length (c :: rest)
                /\ (forall h, hi = Some h -> n <= h)
                /\ Forall (fun c => p c = true) (take n (c :: rest))).
    { destruct (Nat.eqb_spec lo 0); [|done]. intros H. exists prev, 0.
      subst. simpl. split_and!; try done; try lia; try constructor. }
    destruct (hi_zero hi) eqn:Hz; [done|]. destruct (p c) eqn:Hp; [|done].
    destruct (quant_greedy p (Nat.pred lo) (Nat.pred <$> hi) (Some c) rest k) eqn:E;
      [|done].
    intros [= ->]. apply IH in E as (prev' & n & Hk & Hl & Hh & Hall).
    exists prev', (S n). simpl. split_and!; [done|lia|lia| |by constructor].
    intros h ->. simpl in *. specialize (Hh (Nat.pred h) eq_refl).
    destruct h; [done|]. simpl in *. lia.
Qed.

(** A match of the heading pattern captures one to three [#] in its first
    group. *)
Lemma exec_headingRegex prev rest n caps :
  exec headingRegex prev rest = Some (n, caps) ->
  1 <= length (group caps 1) <= 3.
Proof.
  unfold exec, headingRegex, plus. cbn [cat rmatch].
  destruct (at_start true prev); [|done].
  intros (p1 & n1 & H & Hl1 & Hh1 & _)%quant_greedy_taken.
  apply quant_greedy_taken in H as (p2 & n2 & H & _).
  apply quant_greedy_taken in H as (p3 & n3 & H & _).
  destruct (at_end true _); [|done]. injection H as _ <-.
  unfold group. cbn [capture Nat.eqb default from_option Datatypes.id].
  rewrite length_take, length_drop. specialize (Hh1 3 eq_refl). lia.
Qed.

Lemma exec_loop_elem (r : regex) caps s : forall prev skip,
  caps ∈ exec_loop r prev s skip ->
  exists prev' s' n, exec r prev' s' = Some (n, caps).
Proof.
  induction s as [|c s IH]; intros prev skip; cbn [exec_loop].
  - destruct skip; [|by intros ?%elem_of_nil].
    destruct (exec r prev []) as [[n caps']|] eqn:E; [|by intros ?%elem_of_nil].
    intros ->%list_elem_of_singleton. eauto.
  - destruct skip as [|k]; [|by apply IH].
    destruct (exec r prev (c :: s)) as [[[|n] caps']|] eqn:E; [| |by apply IH].
    + intros [->|?]%elem_of_cons; [eauto|by eapply IH].
    + intros [->|?]%elem_of_cons; [eauto|by eapply IH].
Qed.

Lemma collect_headings_elem (h : Heading) (ms : list captures) :
  forall seen : gmap (list N) nat,
  h ∈ collect_headings seen ms ->
  exists m, m ∈ ms /\ level h = length (group m 1)
            /\ text h = heading_text (trim (group m 2)).
Proof.
  induction ms as [|m ms IH]; intros seen; [by intros ?%elem_of_nil|].
  rewrite collect_headings_cons. cbv zeta.
  intros [->|Hin]%elem_of_cons.
  - exists m. split; [left|done].
  - apply IH in Hin as (m' & ? & ?). exists m'. split; [by right|done].
Qed.

Lemma trimEnd_prefix s : exists t, s = trimEnd s ++ t.
Proof.
  unfold trimEnd. induction s as [|c s IH] using rev_ind; [by exists []|].
  rewrite rev_unit. cbn [trimStart]. destruct (is_space c).
  - destruct IH as [t Ht]. exists (t ++ [c]). rewrite app_assoc. by rewrite <- Ht.
  - exists []. cbn [rev]. rewrite rev_involutive. by rewrite app_nil_r.
Qed.

Lemma trim_head s c : head (trim s) = Some c -> is_space c = false.
Proof.
  unfold trim. destruct (trimEnd_prefix (trimStart s)) as [t Ht].
  intros H. apply (trimStart_head s). rewrite Ht.
  by destruct (trimEnd (trimStart s)).
Qed.

Lemma trim_last s c : last (trim s) = Some c -> is_space c = false.
Proof. unfold trim. apply trimEnd_last. Qed.

End HeadingMatchFacts.

(** X4. A heading that [extractHeadings] returns has a level between 1 and
    3, and its text has no white space at either end. *)
Theorem extractHeadings_well_formed (markdown : jsstring) (h : Heading) :
  h ∈ extractHeadings markdown ->
  1 <= level h <= 3
  /\ (forall c, head (text h) = Some c -> is_space c = false)
  /\ (forall c, last (text h) = Some c -> is_space c = false).
Proof.
  destruct markdown as [|c0 s]; [by intros ?%elem_of_nil|].
  unfold extractHeadings.
  intros (m & Hm & Hl & Ht)%collect_headings_elem.
  apply exec_loop_elem in Hm as (prev' & s' & n & Hm).
  apply exec_headingRegex in Hm. rewrite Hl, Ht. unfold heading_text.
  split_and!; [lia|lia|apply trim_head|apply trim_last].
Qed.

Lemma extractHeadings_well_formed_witness :
  1 <= 2 <= 3
  /\ (forall c, head (js "Intro") = Some c -> is_space c = false)
  /\ (forall c, last (js "Intro") = Some c -> is_space c = false).
Proof.
  apply (extractHeadings_well_formed intro_document
           {| level := 2; text := js "Intro"; id := js "intro-2" |}).
  vm_compute. apply list_elem_of_In. simpl. tauto.
Defined.

(** X5. The renderer keeps its registry from one document to the next:
    when a heading text has been rendered once, the next heading with that
    text, also in another document, is rendered with the suffix [-2],
    whereas [extractHeadings] starts every document afresh. *)
Theorem renderer_registry_carries_over (l l' : nat) (t : jsstring) :
  let seen := (render_headings ∅ [TokenArgs (Some l) (Some t)]).2 in
  (render_headings seen [TokenArgs (Some l') (Some t)]).1
  = [heading_html l' (slug_of t ++ js "-2") t].
Proof.
  cbv zeta. rewrite !render_headings_cons. cbn [render_headings fst snd].
  rewrite !heading_token. cbn [fst snd]. rewrite slugify_id, slugify_seen.
  rewrite lookup_insert_eq, lookup_empty.
  cbn [default from_option Datatypes.id Nat.add deduplicated].
  done.
Qed.

(** ** Reading time and excerpts *)

Section ReadingTimeMore.

Implicit Types (s content : jsstring).

Lemma calculateReadingTime_ja content :
  calculateReadingTime content (js "ja") = ceil_div (stripped_length content) 400.
Proof.
  destruct content as [|c s]; [done|]. unfold calculateReadingTime.
  rewrite str_eqb_refl. by rewrite replace_spaces.
Qed.

Lemma calculateReadingTime_other content locale :
  locale <> js "ja" ->
  calculateReadingTime content locale = ceil_div (word_count content) 200.
Proof.
  intros Hl. destruct content as [|c s]; [done|]. unfold calculateReadingTime.
  rewrite str_eqb_ne by done.
  fold (nonempty_pieces (split (plus is_space) (trim (c :: s)))).
  by rewrite split_spaces.
Qed.

Lemma ceil_div_zero n d : 0 < d -> ceil_div n d = 0 <-> n = 0.
Proof.
  intros Hd. pose proof (ceil_div_rounded_up n d Hd) as [H1 H2]. split.
  - intros H0. rewrite H0 in H1. lia.
  - intros ->. unfold ceil_div. apply Nat.div_small. lia.
Qed.

Lemma ceil_div_mono n m d : n <= m -> ceil_div n d <= ceil_div m d.
Proof.
  intros H. unfold ceil_div. destruct d as [|d]; [done|].
  apply Nat.Div0.div_le_mono. lia.
Qed.

Lemma stripped_length_zero s :
  stripped_length s = 0 <-> Forall (fun c => is_space c = true) s.
Proof.
  unfold stripped_length. induction s as [|c s IH]; simpl.
  - split; [constructor|done].
  - destruct (is_space c) eqn:E; simpl.
    + rewrite IH. split; [by constructor|by intros [_ ?]%Forall_cons].
    + split; [done|]. intros [? _]%Forall_cons. congruence.
Qed.

Lemma word_count_zero s :
  word_count s = 0 <-> Forall (fun c => is_space c = true) s.
Proof.
  unfold word_count. induction s as [|c s IH]; simpl.
  - split; [constructor|done].
  - destruct (is_space c) eqn:E; simpl.
    + rewrite IH. split; [by constructor|by intros [_ ?]%Forall_cons].
    + split; [done|]. intros [? _]%Forall_cons. congruence.
Qed.

Lemma stripped_length_app s t :
  stripped_length (s ++ t) = stripped_length s + stripped_length t.
Proof.
  unfold stripped_length. by rewrite List.filter_app, length_app.
Qed.

Lemma count_words_app_le s t : forall b,
  count_words b s <= count_words b (s ++ t).
Proof.
  induction s as [|c s IH]; intros b; simpl; [lia|].
  destruct (is_space c); [apply IH|]. specialize (IH true). lia.
Qed.

End ReadingTimeMore.

(** X6. The reading time is 0 exactly when the content holds nothing but
    white space (the empty content included), whatever the locale. *)
Theorem reading_time_zero_iff_blank (content locale : jsstring) :
  calculateReadingTime content locale = 0
  <-> Forall (fun c => is_space c = true) content.
Proof.
  destruct (decide (locale = js "ja")) as [->|Hl].
  - rewrite calculateReadingTime_ja, ceil_div_zero by lia.
    apply stripped_length_zero.
  - rewrite calculateReadingTime_other, ceil_div_zero by (done || lia).
    apply word_count_zero.
Qed.

(** X7. Appending text never lowers the reading time. *)
Theorem reading_time_monotone (content more locale : jsstring) :
  calculateReadingTime content locale
  <= calculateReadingTime (content ++ more) locale.
Proof.
  destruct (decide (locale = js "ja")) as [->|Hl].
  - rewrite !calculateReadingTime_ja. apply ceil_div_mono.
    rewrite stripped_length_app. lia.
  - rewrite !calculateReadingTime_other by done. apply ceil_div_mono.
    apply count_words_app_le.
Qed.

Section ExcerptShape.

Implicit Types (q : N -> bool) (s t content : jsstring).

Lemma no_adjacent_app_r q s t : no_adjacent q (s ++ t) -> no_adjacent q t.
Proof.
  induction s as [|c s IH]; simpl; [done|]. intros [_ H]. auto.
Qed.

Lemma no_adjacent_snoc q s t :
  no_adjacent q s -> Forall (fun c => q c = false) t -> no_adjacent q (s ++ t).
Proof.
  intros Hs Ht. induction s as [|c s IH]; simpl.
  - induction Ht as [|d t Hd Ht IHt]; simpl; [done|]. split; [|done].
    destruct t; [done|]. by rewrite Hd.
  - destruct Hs as [H1 H2]. split; [|auto].
    destruct s as [|d s]; simpl.
    + destruct Ht as [|e t He _]; [done|]. rewrite He. apply andb_false_r.
    + done.
Qed.

Lemma trimStart_suffix s : exists t, s = t ++ trimStart s.
Proof.
  induction s as [|c s IH]; [by exists []|]. simpl. destruct (is_space c).
  - destruct IH as [t Ht]. exists (c :: t). simpl. by rewrite <- Ht.
  - by exists [].
Qed.

Lemma slice0_prefix s (e : Z) : exists t, s = slice0 s e ++ t.
Proof. unfold slice0. eexists. symmetry. apply firstn_skipn. Qed.

(** The plain text is a trimmed string in which every run of white space
    has been replaced by one space. *)
Lemma plain_text_unfold content :
  exists x, plain_text content = trim (squeeze is_space 0x20 false x).
Proof.
  unfold plain_text. cbv zeta. change (js " ") with [0x20%N].
  rewrite (replace_plus is_space). eauto.
Qed.

Lemma dots_not_space : Forall (fun c => is_space c = false) (js "...").
Proof. change (js "...") with [46; 46; 46]%N. by repeat constructor. Qed.

Lemma plain_spaced_prefix s t : plain_spaced (s ++ t) -> plain_spaced s.
Proof.
  intros [H1 H2]. split; [by apply Forall_app in H1 as [? ?]|].
  by eapply no_adjacent_app_l.
Qed.

Lemma plain_spaced_suffix s t : plain_spaced (s ++ t) -> plain_spaced t.
Proof.
  intros [H1 H2]. split; [by apply Forall_app in H1 as [? ?]|].
  by eapply no_adjacent_app_r.
Qed.

Lemma plain_text_spaced content : plain_spaced (plain_text content).
Proof.
  destruct (plain_text_unfold content) as [x ->].
  assert (H : plain_spaced (squeeze is_space 0x20 false x)).
  { split.
    - apply Forall_forall. intros c [->|[_ Hc]]%squeeze_elem; [done|].
      intros ?. congruence.
    - by apply squeeze_no_adjacent. }
  unfold trim.
  destruct (trimStart_suffix (squeeze is_space 0x20 false x)) as [t Ht].
  rewrite Ht in H. apply plain_spaced_suffix in H.
  destruct (trimEnd_prefix (trimStart (squeeze is_space 0x20 false x))) as [t' Ht'].
  rewrite Ht' in H. by apply plain_spaced_prefix in H.
Qed.

End ExcerptShape.

(** X8. An excerpt is a single line: the only white space it holds is the
    plain space U+0020, never twice in a row, and it does not start with
    white space. *)
Theorem excerpt_single_line (content : jsstring) (maxLength : Z) :
  Forall (fun c => is_space c = true -> c = 0x20%N)
    (generateExcerpt content maxLength)
  /\ no_adjacent is_space (generateExcerpt content maxLength)
  /\ (forall c, head (generateExcerpt content maxLength) = Some c ->
                is_space c = false).
Proof.
  pose proof (plain_text_spaced content) as Hp.
  assert (Hh : forall c, head (plain_text content) = Some c -> is_space c = false).
  { destruct (plain_text_unfold content) as [x ->]. apply trim_head. }
  rewrite generateExcerpt_cases.
  destruct (Z.of_nat (length (plain_text content)) <=? maxLength)%Z.
  { destruct Hp. done. }
  destruct (bool_decide (content = [])); [done|].
  destruct (slice0_prefix (plain_text content) maxLength) as [t Ht].
  destruct (trimEnd_prefix (slice0 (plain_text content) maxLength)) as [t' Ht'].
  set (cut := trimEnd (slice0 (plain_text content) maxLength)) in *.
  assert (Hcut : plain_spaced cut).
  { rewrite Ht in Hp. apply plain_spaced_prefix in Hp.
    rewrite Ht' in Hp. by apply plain_spaced_prefix in Hp. }
  destruct Hcut as [Hc1 Hc2]. split_and!.
  - apply Forall_app. split; [done|].
    eapply Forall_impl; [apply dots_not_space|]. intros c Hc ?. congruence.
  - apply no_adjacent_snoc; [done|]. apply dots_not_space.
  - intros c Hc. destruct cut as [|d cut'] eqn:E.
    + injection Hc as <-. by vm_compute.
    + injection Hc as <-. apply Hh. rewrite Ht, Ht'. done.
Qed.

(* ===================================================================== *)
(** * Further properties of the Strapi client *)
(* ===================================================================== *)

(** ** normalize and the fetch operations *)

Section NormalizeMore.

Implicit Types (props obj : list (jsstring * value)) (key : jsstring).
Implicit Types (v entity : value).

Lemma normalize_get_prop entity key :
  truthy entity = true -> is_entity entity = true ->
  get_prop (normalize entity) key
  = default VUndefined (resolved normalize <$> lookup_prop (merged entity) key).
Proof.
  intros Ht He. rewrite normalize_entity by done. cbn [get_prop].
  by rewrite lookup_prop_map_values.
Qed.

Lemma lookup_spread_is_Some entries : forall props key,
  is_Some (lookup_prop
             (fold_left (fun acc kv => set_prop acc kv.1 kv.2) entries props) key)
  <-> is_Some (lookup_prop props key) \/ key ∈ map fst entries.
Proof.
  induction entries as [|[k x] entries IH]; intros props key; simpl.
  - split; [by left|]. intros [?|?%elem_of_nil]; done.
  - rewrite IH. destruct (decide (k = key)) as [->|Hne].
    + rewrite lookup_set_prop_eq. split; [intros _; right; left|eauto].
    + rewrite lookup_set_prop_ne by done. split.
      * intros [?|?]; [by left|right; by right].
      * intros [?|[?|?]%elem_of_cons]; [by left|congruence|by right].
Qed.

Lemma has_prop_map_values (f : value -> value) obj key :
  has_prop (VObj (map (fun kx => (kx.1, f kx.2)) obj)) key = has_prop (VObj obj) key.
Proof.
  cbn [has_prop]. rewrite lookup_prop_map_values.
  by destruct (lookup_prop obj key).
Qed.

End NormalizeMore.

(** X9. [normalize] leaves every property of an entity that is not a
    relation wrapper as it is, and a key that the entity does not have
    stays undefined. *)
Theorem normalize_plain_fields (entity : value) (key : jsstring) :
  truthy entity = true ->
  is_entity entity = true ->
  (forall x, lookup_prop (merged entity) key = Some x ->
             is_relation x = false ->
             get_prop (normalize entity) key = x)
  /\ (lookup_prop (merged entity) key = None ->
      get_prop (normalize entity) key = VUndefined).
Proof.
  intros Ht He. rewrite normalize_get_prop by done. split.
  - intros x -> Hx. simpl. unfold resolved. by rewrite Hx.
  - by intros ->.
Qed.

Lemma normalize_plain_fields_witness :
  get_prop (normalize article_with_tags) (js "title") = VStr (js "Kintsugi")
  /\ get_prop (normalize article_with_tags) (js "attributes") = VUndefined.
Proof.
  destruct (normalize_plain_fields article_with_tags (js "title")) as [H _];
    [by vm_compute|by vm_compute|].
  destruct (normalize_plain_fields article_with_tags (js "attributes")) as [_ H'];
    [by vm_compute|by vm_compute|].
  split.
  - apply H; by vm_compute.
  - apply H'. by vm_compute.
Defined.

(** X10. For an entity, an object that carries the keys [id] and
    [attributes], the keys of the normalized result are [id] and the own
    keys that the spread of the [attributes] value copies, nothing else:
    the keys of an [attributes] object, no key when the value of
    [attributes] is [null] or [undefined]. The [attributes] envelope is
    gone unless the attributes themselves have a property of that name. A
    truthy value that is no entity, such as an object without the key
    [attributes], keeps exactly its keys. *)
Theorem normalize_keys (entity : value) (key : jsstring) :
  truthy entity = true ->
  (is_entity entity = true ->
   (has_prop (normalize entity) key = true
    <-> key = js "id"
        \/ key ∈ map fst (own_entries
                            (nullish (get_prop entity (js "attributes")) (VObj []))))
   /\ (forall attrs,
          get_prop entity (js "attributes") = VObj attrs ->
          has_prop (normalize entity) key = true
          <-> key = js "id" \/ key ∈ map fst attrs)
   /\ (get_prop entity (js "attributes") = VNull
       \/ get_prop entity (js "attributes") = VUndefined ->
       has_prop (normalize entity) key = true <-> key = js "id"))
  /\ (is_entity entity = false ->
      has_prop (normalize entity) key = has_prop entity key).
Proof.
  intros Ht. split; [|intros He; by rewrite normalize_not_entity].
  intros He.
  assert (H : has_prop (normalize entity) key = true
              <-> key = js "id"
                  \/ key ∈ map fst (own_entries
                        (nullish (get_prop entity (js "attributes")) (VObj [])))).
  { rewrite normalize_entity by done.
    rewrite has_prop_map_values. cbn [has_prop].
    rewrite bool_decide_eq_true. unfold merged, spread_into.
    rewrite lookup_spread_is_Some. cbn [lookup_prop].
    split.
    - intros [His|?]; [left|by right].
      unfold str_eqb in His. case_bool_decide; [done|]. by destruct His.
    - intros [->|?]; [left|by right]. by rewrite str_eqb_refl. }
  split_and!; [done| |].
  - intros attrs Ha. by rewrite H, Ha.
  - intros Ha. rewrite H.
    assert (Hn : own_entries (nullish (get_prop entity (js "attributes")) (VObj []))
                 = []) by (by destruct Ha as [-> | ->]).
    rewrite Hn. split; [|by left]. by intros [?|?%elem_of_nil].
Qed.

Lemma normalize_keys_witness :
  has_prop (normalize nested_attributes) (js "id") = true
  /\ has_prop (normalize nested_attributes) (js "attributes") = true
  /\ ~ has_prop (normalize nested_attributes) (js "b") = true
  /\ has_prop (normalize flat_article) (js "title") = true.
Proof.
  pose proof (fun key =>
    proj1 (proj2 (proj1 (normalize_keys nested_attributes key ltac:(by vm_compute))
                    ltac:(by vm_compute)))
      [(js "attributes", VObj [(js "b", VNum 1)])] ltac:(by vm_compute)) as H.
  split_and!.
  - apply H. by left.
  - apply H. right. left.
  - intros [?|Hin]%H; [done|]. apply list_elem_of_In in Hin. simpl in Hin.
    by destruct Hin.
  - rewrite (proj2 (normalize_keys flat_article (js "title") ltac:(by vm_compute)))
      by by vm_compute.
    by vm_compute.
Defined.

(** X11. [normalize] returns [null] exactly for the falsy inputs
    ([undefined], [null], [false], [0], the empty string); for every other
    input the result is truthy, so it is never [undefined]. *)
Theorem normalize_null_iff_falsy (v : value) :
  (normalize v = VNull <-> truthy v = false)
  /\ (truthy v = true -> truthy (normalize v) = true)
  /\ normalize v <> VUndefined.
Proof.
  assert (Ht : truthy v = true -> truthy (normalize v) = true).
  { intros Ht. destruct (is_entity v) eqn:He.
    - by rewrite normalize_entity.
    - by rewrite normalize_not_entity. }
  split_and!; [split| |].
  - intros Hn. destruct (truthy v) eqn:E; [|done].
    specialize (Ht eq_refl). by rewrite Hn in Ht.
  - apply normalize_falsy.
  - done.
  - destruct (truthy v) eqn:E.
    + specialize (Ht eq_refl). intros Hn. by rewrite Hn in Ht.
    + by rewrite normalize_falsy.
Qed.


(** X12. On a successful response, [fetchArticles] returns the normalized
    entries of the body, in order and as many as the body holds: each
    element of a [data] array, the one entry of a [data] that is a single
    entity, none when [data] is missing or null. [meta] is handed on
    untouched. *)
Theorem fetchArticles_success (fetch : transport) (locale : jsstring)
    (filters : list (jsstring * value)) (sort : jsstring) (pageSize : nat)
    (res : response) (body : value) :
  fetch (articles_request locale filters sort pageSize) = Return res ->
  ok res = true ->
  json res = Return body ->
  fetchArticles fetch locale filters sort pageSize
  = Return {| data := match get_opt body (js "data") with
                      | VArr items => map normalize items
                      | d => if truthy d then [normalize d] else []
                      end;
              meta := get_opt body (js "meta") |}.
Proof.
  intros Hf Hok Hj. unfold fetchArticles. rewrite Hf. cbn [bind try_catch].
  rewrite Hok, Hj. cbn [negb bind try_catch]. by rewrite normalized_entries.
Qed.

Lemma fetchArticles_success_witness :
  fetchArticles (fun _ => Return (ok_response two_articles_body))
    (js "en") [] (js "publishedAt:desc") 50
  = Return {| data := [normalize article_with_tags; normalize nested_attributes];
              meta := VObj [(js "total", VNum 2)] |}.
Proof.
  rewrite (fetchArticles_success (fun _ => Return (ok_response two_articles_body))
             (js "en") [] (js "publishedAt:desc") 50
             (ok_response two_articles_body) two_articles_body
             eq_refl eq_refl eq_refl).
  by vm_compute.
Defined.

(** X13. [fetchArticle] always returns, and what it returns is [null] or a
    truthy value: a caller can test the result for presence and never sees
    [undefined]. *)
Theorem fetchArticle_null_or_entry (fetch : transport) (slug locale : jsstring) :
  exists v, fetchArticle fetch slug locale = Return v
            /\ (v = VNull \/ truthy v = true).
Proof.
  assert (Hnull : exists v, @Return value VNull = Return v
                            /\ (v = VNull \/ truthy v = true))
    by (exists VNull; auto).
  unfold fetchArticle. destruct (fetch _) as [res|e]; cbn [bind try_catch]; [|done].
  destruct (ok res); cbn [negb bind try_catch]; [|done].
  destruct (json res) as [body|e]; cbn [bind try_catch]; [|done].
  eexists. split; [done|].
  destruct (as_array (data (normalizeResponse body))) as [|x l] eqn:E;
    [by left|].
  assert (Hx : x = VNull \/ truthy x = true).
  { apply (as_array_entries_truthy body). rewrite E. left. }
  cbn [head default from_option Datatypes.id].
  destruct Hx as [->|Hx]; [by left|].
  destruct x; simpl in *; try done; by right.
Qed.

(** X14. [normalizeResponse] mirrors the shape of [data]: an array comes
    back as the array of its normalized elements, of the same length, and
    anything else comes back as a value that is not an array. *)
Theorem normalizeResponse_shape (body : value) :
  match get_opt body (js "data") with
  | VArr items =>
      data (normalizeResponse body) = VArr (map normalize items)
      /\ length (map normalize items) = length items
  | d =>
      data (normalizeResponse body) = normalize d
      /\ forall items, data (normalizeResponse body) <> VArr items
  end
  /\ meta (normalizeResponse body) = get_opt body (js "meta").
Proof.
  assert (Hn : forall d, (forall items, d <> VArr items) ->
                         forall items, normalize d <> VArr items).
  { intros d Hd items Heq. destruct (truthy d) eqn:Ht.
    - destruct (is_entity d) eqn:He.
      + by rewrite normalize_entity in Heq.
      + rewrite normalize_not_entity in Heq by done. by apply (Hd items).
    - by rewrite normalize_falsy in Heq. }
  split; [|done]. unfold normalizeResponse. cbn [data].
  destruct (get_opt body (js "data")) as [| | | | |items|] eqn:E; cbv zeta;
    try (split; [done|]; by apply Hn).
  split; [done|]. apply length_map.
Qed.

(** ** Glimpses and requests *)

Section GlimpseFacts.

Implicit Types (fetch : transport) (locale slug : jsstring).

Lemma fetchArticles_returns fetch locale filters sort pageSize :
  exists r, fetchArticles fetch locale filters sort pageSize = Return r.
Proof.
  unfold fetchArticles. destruct (fetch _) as [res|e]; cbn [bind try_catch]; [|eauto].
  destruct (ok res); cbn [negb bind try_catch]; [|eauto].
  destruct (json res); cbn [bind try_catch]; eauto.
Qed.

Lemma category_glimpse_returns fetch locale slug :
  exists g, category_glimpse fetch locale slug = Return g
            /\ category g = slug /\ length (articles g) <= 2.
Proof.
  unfold category_glimpse.
  destruct (fetchArticles_returns fetch locale
              [(js "category.slug", VStr slug); (js "featured", VBool true)]
              (js "publishedAt:desc") 10) as [r1 ->].
  cbn [bind]. destruct (data r1).
  - destruct (fetchArticles_returns fetch locale
                [(js "category.slug", VStr slug)]
                (js "publishedAt:desc") 10) as [r2 ->].
    cbn [bind]. eexists. split_and!; [done|done|].
    cbn [articles]. rewrite length_take. lia.
  - cbn [bind]. eexists. split_and!; [done|done|].
    cbn [articles]. rewrite length_take. lia.
Qed.

Lemma promise_all_returns {A B : Type} (f : A -> completion B)
    (P : A -> B -> Prop) (l : list A) :
  (forall x, exists b, f x = Return b /\ P x b) ->
  exists bs, promise_all (map f l) = Return bs /\ Forall2 P l bs.
Proof.
  intros Hf. induction l as [|x l IH].
  - exists []. split; [done|constructor].
  - destruct (Hf x) as (b & Hb & HP). destruct IH as (bs & Hbs & HPs).
    exists (b :: bs). cbn [map promise_all]. rewrite Hb, Hbs.
    split; [done|by constructor].
Qed.

End GlimpseFacts.

(** X15. [fetchCategoryGlimpses] never throws and always returns six
    glimpses, one per category, in the fixed order culture, language, food,
    society, art, travel, each with at most two articles. *)
Theorem fetchCategoryGlimpses_shape (fetch : transport) (locale : jsstring) :
  exists gs,
    fetchCategoryGlimpses fetch locale = Return gs
    /\ map category gs = glimpse_categories
    /\ Forall (fun g => length (articles g) <= 2) gs.
Proof.
  unfold fetchCategoryGlimpses.
  destruct (promise_all_returns (category_glimpse fetch locale)
              (fun slug g => category g = slug /\ length (articles g) <= 2)
              glimpse_categories) as (gs & Hgs & HP).
  { intros slug. apply category_glimpse_returns. }
  exists gs. split; [done|]. clear Hgs.
  induction HP as [|slug g l gs' [Hc Hl] HP IH]; [done|].
  destruct IH as [IH1 IH2]. split.
  - simpl. by rewrite Hc, IH1.
  - by constructor.
Qed.

(** X16. When the query for the featured articles of a category fails
    (the transport rejects or the status is not a success), the glimpse
    shows the first two of the latest articles of the category, exactly as
    when the category has no featured article. *)
Theorem category_glimpse_fallback (fetch : transport) (locale slug : jsstring)
    (latest : StrapiResponse (list value)) :
  failed (fetch (articles_request locale
                   [(js "category.slug", VStr slug); (js "featured", VBool true)]
                   (js "publishedAt:desc") 10)) ->
  fetchArticles fetch locale [(js "category.slug", VStr slug)]
    (js "publishedAt:desc") 10 = Return latest ->
  category_glimpse fetch locale slug
  = Return {| category := slug; articles := take 2 (data latest) |}.
Proof.
  intros H1 H2. unfold category_glimpse.
  rewrite (fetchArticles_on_failure _ _ _ _ _ H1). cbn [bind data].
  by rewrite H2.
Qed.

Lemma category_glimpse_fallback_witness :
  category_glimpse featured_down (js "en") (js "food")
  = Return {| category := js "food";
              articles := [normalize article_with_tags; normalize nested_attributes] |}.
Proof.
  rewrite (category_glimpse_fallback featured_down (js "en") (js "food")
             {| data := [normalize article_with_tags; normalize nested_attributes];
                meta := VObj [(js "total", VNum 2)] |}).
  - done.
  - by vm_compute.
  - by vm_compute.
Defined.

Section RequestFacts.

Lemma filter_param_length kv :
  length (filter_param kv) = if present kv.2 then 1 else 0.
Proof.
  destruct kv as [k v]. unfold filter_param. cbn [snd].
  destruct v; try done; destruct (str_eqb k (js "category.slug")); done.
Qed.

Lemma filter_params_present filters :
  flat_map filter_param filters = flat_map filter_param (present_filters filters)
  /\ length (flat_map filter_param filters) = length (present_filters filters).
Proof.
  unfold present_filters. induction filters as [|kv filters [IH1 IH2]]; [done|].
  cbn [flat_map List.filter]. rewrite length_app, filter_param_length, IH2.
  destruct (present kv.2) eqn:E.
  - cbn [flat_map length]. by rewrite <- IH1.
  - split; [|done]. rewrite <- IH1.
    pose proof (filter_param_length kv) as Hl. rewrite E in Hl.
    by destruct (filter_param kv).
Qed.

End RequestFacts.

(** X17. Filters whose value is [null] or [undefined] are ignored: the
    request is the one built from the remaining filters, and it carries the
    six fixed parameters (locale, sort, page size and the three populated
    relations), with the locale and the sort order as [URLSearchParams]
    holds them, followed by exactly one parameter per remaining filter. *)
Theorem articles_request_filters (locale : jsstring)
    (filters : list (jsstring * value)) (sort : jsstring) (pageSize : nat) :
  articles_request locale filters sort pageSize
  = articles_request locale (present_filters filters) sort pageSize
  /\ take 6 (params (articles_request locale filters sort pageSize))
     = [(js "locale", toWellFormed locale); (js "sort", toWellFormed sort);
        (js "pagination[pageSize]", toString pageSize);
        (js "populate[coverImage]", js "true");
        (js "populate[heroImage]", js "true");
        (js "populate[category]", js "true")]
  /\ length (params (articles_request locale filters sort pageSize))
     = 6 + length (present_filters filters).
Proof.
  destruct (filter_params_present filters) as [H1 H2].
  unfold articles_request, URLSearchParams. cbn [params]. split_and!.
  - by rewrite <- H1.
  - cbn [app map fst snd take]. by rewrite toWellFormed_toString.
  - rewrite length_map. cbn [app length]. by rewrite H2.
Qed.

(** ** Image URLs *)

Section ImageUrlFacts.

Implicit Types (q : N -> bool) (s u p base : jsstring) (prev : option N).

Lemma exec_trailing_slash prev s :
  exec (Cat (chr "/") (AssertEnd false)) prev s =
  match s with
  | [c] => if (0x2F =? c)%N then Some (1, []) else None
  | _ => None
  end.
Proof.
  unfold exec, chr. cbn [rmatch]. change (N_of_ascii "/"%char) with 0x2F%N.
  destruct s as [|c [|d s]]; [done| |]; destruct (0x2F =? c)%N; done.
Qed.

Lemma replace_trailing_slash s : forall prev,
  replace_first_loop (Cat (chr "/") (AssertEnd false)) [] prev s
  = drop_last_if (N.eqb 0x2F) s.
Proof.
  induction s as [|c s IH]; intros prev; cbn [replace_first_loop];
    rewrite exec_trailing_slash; [done|].
  destruct s as [|d s].
  - cbn [drop_last_if]. by destruct (0x2F =? c)%N.
  - rewrite IH. done.
Qed.

Lemma drop_last_if_snoc q u c : q c = true -> drop_last_if q (u ++ [c]) = u.
Proof.
  intros Hc. induction u as [|a u IH]; simpl; [by rewrite Hc|].
  rewrite IH. by destruct u.
Qed.

Lemma drop_last_if_keep q s :
  (forall c, last s = Some c -> q c = false) -> drop_last_if q s = s.
Proof.
  induction s as [|a s IH]; [done|]. intros H. simpl. destruct s as [|b s].
  - by rewrite (H a).
  - f_equal. apply IH. intros c Hc. apply H. done.
Qed.

Lemma startsWith_app base p prefix :
  startsWith base prefix = true -> startsWith (base ++ p) prefix = true.
Proof.
  unfold startsWith. rewrite !bool_decide_eq_true. intros H.
  assert (Hl : length prefix <= length base).
  { rewrite <- H at 1. rewrite length_take. lia. }
  by rewrite take_app_le.
Qed.

Lemma resolved_str (rec : value -> value) u : resolved rec (VStr u) = VStr u.
Proof.
  unfold resolved, is_relation. cbn [is_object]. by rewrite andb_false_r.
Qed.

Lemma get_opt_obj props key :
  get_opt (VObj props) key = default VUndefined (lookup_prop props key).
Proof. done. Qed.

End ImageUrlFacts.

(** X18. [STRAPI_URL] is the configured URL without one trailing slash: a
    URL that ends in a slash loses exactly that slash, any other URL is
    kept, and without configuration it is [http://localhost:1337]. *)
Theorem STRAPI_URL_trailing_slash :
  STRAPI_URL None = js "http://localhost:1337"
  /\ (forall u, STRAPI_URL (Some (u ++ js "/")) = u)
  /\ (forall u, last u <> Some 0x2F%N -> STRAPI_URL (Some u) = u).
Proof.
  split_and!.
  - by vm_compute.
  - intros u. unfold STRAPI_URL, replace_first. cbn [default from_option Datatypes.id].
    rewrite replace_trailing_slash. change (js "/") with [0x2F%N].
    by apply drop_last_if_snoc.
  - intros u Hu. unfold STRAPI_URL, replace_first.
    cbn [default from_option Datatypes.id].
    rewrite replace_trailing_slash. apply drop_last_if_keep.
    intros c Hc. apply N.eqb_neq. intros <-. done.
Qed.

Lemma STRAPI_URL_trailing_slash_witness :
  STRAPI_URL (Some (js "https://cms.example.com")) = js "https://cms.example.com".
Proof.
  apply (proj2 (proj2 STRAPI_URL_trailing_slash)). by vm_compute.
Defined.

(** X19. For a base URL that starts with [http], the image URL of a
    non-empty path is an absolute URL, and resolving it again changes
    nothing. *)
Theorem getStrapiImageUrl_idempotent (base p fallback : jsstring) :
  startsWith base (js "http") = true ->
  p <> [] ->
  exists url,
    getStrapiImageUrl base (VStr p) fallback = Return url
    /\ startsWith url (js "http") = true
    /\ getStrapiImageUrl base (VStr url) fallback = Return url.
Proof.
  intros Hb Hp.
  assert (Habs : forall url, startsWith url (js "http") = true ->
                   getStrapiImageUrl base (VStr url) fallback = Return url).
  { intros url Hu. unfold getStrapiImageUrl. rewrite Hu.
    destruct url; [by vm_compute in Hu|done]. }
  destruct (startsWith p (js "http")) eqn:E.
  - exists p. by rewrite Habs.
  - exists (base ++ p). split_and!.
    + unfold getStrapiImageUrl. rewrite E. by destruct p.
    + by apply startsWith_app.
    + apply Habs. by apply startsWith_app.
Qed.

Lemma getStrapiImageUrl_idempotent_witness :
  getStrapiImageUrl (js "http://localhost:1337")
    (VStr (js "http://localhost:1337/uploads/a.jpg")) placeholder
  = Return (js "http://localhost:1337/uploads/a.jpg").
Proof.
  destruct (getStrapiImageUrl_idempotent (js "http://localhost:1337")
              (js "/uploads/a.jpg") placeholder) as (url & H1 & _ & H3).
  - by vm_compute.
  - by vm_compute.
  - vm_compute in H1. injection H1 as <-. exact H3.
Defined.

(** X20. The image URL of an article does not depend on whether the
    article has been normalized: for an article as the CMS sends it, whose
    cover image is a media entity with a non-empty [url], the raw article
    and its normalized form give the same URL, the one resolved from that
    [url]. *)
Theorem getArticleImageUrl_normalize_invariant (base : jsstring)
    (attrs mattrs : list (jsstring * value)) (id mid : value) (u : jsstring) :
  NoDup (map fst attrs) ->
  NoDup (map fst mattrs) ->
  lookup_prop attrs (js "coverImage")
  = Some (VObj [(js "data",
                 VObj [(js "id", mid); (js "attributes", VObj mattrs)])]) ->
  lookup_prop mattrs (js "url") = Some (VStr u) ->
  u <> [] ->
  getArticleImageUrl base
    (normalize (VObj [(js "id", id); (js "attributes", VObj attrs)]))
  = getStrapiImageUrl base (VStr u) placeholder
  /\ getArticleImageUrl base (VObj [(js "id", id); (js "attributes", VObj attrs)])
     = getStrapiImageUrl base (VStr u) placeholder.
Proof.
  intros Hna Hnm Hcover Hurl Hu.
  set (media := VObj [(js "id", mid); (js "attributes", VObj mattrs)]) in *.
  set (wrapper := VObj [(js "data", media)]) in *.
  set (article := VObj [(js "id", id); (js "attributes", VObj attrs)]).
  assert (Htu : truthy (VStr u) = true) by by destruct u.
  assert (Hmurl : get_opt (normalize media) (js "url") = VStr u).
  { rewrite normalize_entity by by vm_compute. rewrite get_opt_obj.
    rewrite lookup_prop_map_values.
    rewrite (merged_attribute media mattrs (js "url") (VStr u));
      [|by vm_compute|done|done].
    cbn [fmap option_fmap option_map default from_option Datatypes.id].
    apply resolved_str. }
  split.
  - assert (Hc : get_opt (normalize article) (js "coverImage") = normalize media).
    { rewrite normalize_entity by by vm_compute. rewrite get_opt_obj.
      rewrite lookup_prop_map_values.
      rewrite (merged_attribute article attrs (js "coverImage") wrapper);
        [|by vm_compute|done|done].
      cbn [fmap option_fmap option_map default from_option Datatypes.id].
      unfold resolved. by vm_compute (is_relation wrapper). }
    unfold getArticleImageUrl. rewrite Hc, Hmurl.
    cbn [nullish]. unfold or_else. by rewrite Htu.
  - unfold getArticleImageUrl.
    assert (H1 : get_opt article (js "coverImage") = VUndefined) by by vm_compute.
    assert (H2 : get_opt article (js "attributes") = VObj attrs) by by vm_compute.
    rewrite H1, H2. cbn [get_opt nullish get_prop]. rewrite Hcover.
    cbn [default from_option Datatypes.id].
    assert (H3 : get_opt wrapper (js "data") = media) by by vm_compute.
    assert (H4 : get_opt media (js "attributes") = VObj mattrs) by by vm_compute.
    rewrite H3, H4, get_opt_obj, Hurl.
    cbn [default from_option Datatypes.id nullish].
    unfold or_else. by rewrite Htu.
Qed.

Lemma getArticleImageUrl_normalize_invariant_witness :
  getArticleImageUrl (js "http://localhost:1337")
    (normalize (VObj [(js "id", VNum 1); (js "attributes", VObj cover_article_attrs)]))
  = Return (js "http://localhost:1337/uploads/bowl.jpg").
Proof.
  destruct (getArticleImageUrl_normalize_invariant
              (js "http://localhost:1337")
              cover_article_attrs cover_media_attrs (VNum 1) (VNum 9)
              (js "/uploads/bowl.jpg")) as [H _].
  - apply (bool_decide_eq_true_1 _). by vm_compute.
  - apply (bool_decide_eq_true_1 _). by vm_compute.
  - by vm_compute.
  - by vm_compute.
  - by vm_compute.
  - rewrite H. by vm_compute.
Defined.

(** X21. An article that has no [coverImage], no [heroImage] and no
    [attributes] (among them [null], [undefined] and every article without
    images once normalized) gets the placeholder image. *)
Theorem getArticleImageUrl_placeholder (base : jsstring) (article : value) :
  get_opt article (js "coverImage") = VUndefined ->
  get_opt article (js "heroImage") = VUndefined ->
  get_opt article (js "attributes") = VUndefined ->
  getArticleImageUrl base article = Return placeholder.
Proof.
  intros H1 H2 H3. unfold getArticleImageUrl. by rewrite H1, H2, H3.
Qed.

Lemma getArticleImageUrl_placeholder_witness :
  getArticleImageUrl (js "http://localhost:1337") flat_article = Return placeholder.
Proof.
  apply getArticleImageUrl_placeholder; by vm_compute.
Defined.

(** X22. [getStrapiImageUrl] throws when it is handed a truthy value that
    is not a string, and [getArticleImageUrl] hands on whatever it finds
    under [coverImage.url]: an article whose cover [url] is a number other
    than 0 makes it throw. *)
Theorem getArticleImageUrl_throws (base : jsstring)
    (props cover : list (jsstring * value)) (n : Z) :
  lookup_prop props (js "coverImage") = Some (VObj cover) ->
  lookup_prop cover (js "url") = Some (VNum n) ->
  n <> 0%Z ->
  exists error, getArticleImageUrl base (VObj props) = Throw error.
Proof.
  intros Hc Hu Hn. unfold getArticleImageUrl.
  rewrite (get_opt_obj props (js "coverImage")), Hc.
  cbn [default from_option Datatypes.id].
  rewrite (get_opt_obj cover (js "url")), Hu.
  cbn [default from_option Datatypes.id nullish].
  unfold or_else. cbn [truthy].
  assert (Hz : (n =? 0)%Z = false) by by apply Z.eqb_neq.
  rewrite Hz. cbn [negb]. unfold getStrapiImageUrl. cbn [truthy].
  rewrite Hz. cbn [negb]. eauto.
Qed.

Lemma getArticleImageUrl_throws_witness :
  exists error,
    getArticleImageUrl (js "http://localhost:1337")
      (VObj [(js "id", VNum 1);
             (js "coverImage", VObj [(js "url", VNum 404)])])
    = Throw error.
Proof.
  apply (getArticleImageUrl_throws _ _ [(js "url", VNum 404)] 404);
    by vm_compute.
Defined.

(* ===================================================================== *)
(** * Further properties of the UI strings and locales *)
(* ===================================================================== *)

Section UiFacts.

Lemma get_ui_cases (locale : jsstring) :
  I18n.get ui locale = None
  \/ I18n.get ui locale = Some uiBase
  \/ I18n.get ui locale = Some uiJa.
Proof.
  unfold ui. cbn [I18n.get].
  repeat (match goal with
          | |- context [str_eqb locale ?k] => destruct (str_eqb locale k)
          end; auto).
Qed.

Lemma get_ui_invalid (locale : jsstring) :
  isValidLocale locale = false -> I18n.get ui locale = None.
Proof.
  unfold isValidLocale, locales. cbn [map existsb]. intros H.
  repeat (apply orb_false_elim in H as [? H]).
  unfold ui. cbn [I18n.get].
  repeat match goal with
         | Hx : str_eqb locale _ = false |- _ => rewrite Hx; clear Hx
         end.
  done.
Qed.

Lemma ui_keys_in_both_tables : forallb in_both_tables ui_keys = true.
Proof. by vm_compute. Qed.

End UiFacts.

(** X23. For every UI key, [t] returns a string whatever locale string it
    is given, and for a locale that is not one of the eight it is the
    English string. *)
Theorem t_any_locale (locale key : jsstring) :
  key ∈ ui_keys ->
  (exists s, t locale key = Some s)
  /\ (isValidLocale locale = false -> t locale key = t defaultLocale key).
Proof.
  intros Hk%list_elem_of_In.
  pose proof ui_keys_in_both_tables as H. rewrite forallb_forall in H.
  specialize (H key Hk). unfold in_both_tables in H.
  apply andb_prop in H as [[b Hb]%bool_decide_eq_true [j Hj]%bool_decide_eq_true].
  assert (Hd : I18n.get ui defaultLocale = Some uiBase) by by vm_compute.
  split.
  - unfold t. rewrite Hd.
    destruct (get_ui_cases locale) as [ -> | [ -> | -> ] ];
      cbn [mbind option_bind]; rewrite ?Hb, ?Hj; eauto.
  - intros Hl. unfold t. rewrite Hd, (get_ui_invalid _ Hl).
    cbn [mbind option_bind]. by rewrite Hb.
Qed.

Lemma t_any_locale_witness :
  t (js "pt-BR") (js "nav.home") = t (js "en") (js "nav.home").
Proof.
  apply (t_any_locale (js "pt-BR") (js "nav.home")).
  - apply list_elem_of_In. vm_compute. tauto.
  - by vm_compute.
Defined.

(** X24. A path that starts with a recognized locale segment gives that
    locale back, whatever follows the segment. *)
Theorem getLocaleFromUrl_prefix (locale rest : jsstring) :
  isValidLocale locale = true ->
  getLocaleFromUrl (js "/" ++ locale ++ js "/" ++ rest) = locale
  /\ getLocaleFromUrl (js "/" ++ locale) = locale.
Proof.
  unfold isValidLocale. intros (l & Hin & Hl)%existsb_exists.
  apply str_eqb_true in Hl. subst l. unfold locales in Hin. cbn [map In] in Hin.
  repeat (destruct Hin as [ <- | Hin ]; [split; by vm_compute|]).
  done.
Qed.

Lemma getLocaleFromUrl_prefix_witness :
  getLocaleFromUrl (js "/ja/articles/tea") = js "ja".
Proof.
  apply (getLocaleFromUrl_prefix (js "ja") (js "articles/tea")).
  by vm_compute.
Defined.

(* ===================================================================== *)
(** * Array indices, pass-through and the alphabet of ids *)
(* ===================================================================== *)

Section DigitFacts.

Lemma digits_are_digits d : Forall (fun c => is_digit c = true) (digits d).
Proof. induction d; simpl; by repeat constructor. Qed.

Lemma toString_digits n : Forall (fun c => is_digit c = true) (toString n).
Proof. apply digits_are_digits. Qed.

Lemma is_digit_slug_char c : is_digit c = true -> is_slug_char c = true.
Proof. unfold is_digit, is_slug_char. by intros ->. Qed.

(** A key with a code unit that is not a digit is not an array index. *)
Lemma index_of_key_None (key : jsstring) n :
  ~ Forall (fun c => is_digit c = true) key -> index_of_key key n = None.
Proof.
  intros Hk. unfold index_of_key. generalize (seq 0 n). intros l.
  induction l as [|i l IH]; [done|]. cbn [find].
  rewrite str_eqb_ne; [done|]. intros ->. apply Hk, toString_digits.
Qed.

Lemma array_not_entity items : is_entity (VArr items) = false.
Proof.
  unfold is_entity. cbn [is_object has_prop andb].
  rewrite (index_of_key_None (js "id")).
  - by vm_compute.
  - intros H. apply Forall_cons in H as [H _]. by vm_compute in H.
Qed.

Lemma slug_of_chars (t : jsstring) :
  slug_of t <> [] /\ Forall (fun c => is_slug_char c = true) (slug_of t).
Proof.
  destruct (slug_base_shape t) as (H1 & _).
  unfold slug_of. destruct (slug_base t) as [|c s]; [clear|done]. split.
  - by vm_compute.
  - apply Forall_forall. intros c Hc%list_elem_of_In.
    by apply (proj1 (forallb_forall is_slug_char (js "section"))); [vm_compute|].
Qed.

End DigitFacts.

(** X25. [normalize] hands back unchanged every array (its elements are not
    normalized), every truthy scalar and every object without an
    [attributes] property, such as a component or an entity that is already
    flat. *)
Theorem normalize_passes_through :
  (forall items, normalize (VArr items) = VArr items)
  /\ (forall s, s <> [] -> normalize (VStr s) = VStr s)
  /\ (forall n, n <> 0%Z -> normalize (VNum n) = VNum n)
  /\ normalize (VBool true) = VBool true
  /\ (forall props, lookup_prop props (js "attributes") = None ->
                    normalize (VObj props) = VObj props).
Proof.
  split_and!.
  - intros items. apply normalize_not_entity; [done|apply array_not_entity].
  - intros s Hs. apply normalize_not_entity; [by destruct s|done].
  - intros n Hn. apply normalize_not_entity; [|done].
    cbn [truthy]. by apply negb_true_iff, Z.eqb_neq.
  - by apply normalize_not_entity.
  - intros props Hp. apply normalize_not_entity; [done|].
    unfold is_entity. cbn [is_object has_prop andb]. rewrite Hp.
    apply andb_false_r.
Qed.

Lemma normalize_passes_through_witness :
  normalize (VStr (js "tea")) = VStr (js "tea")
  /\ normalize flat_article = flat_article.
Proof.
  destruct normalize_passes_through as (_ & Hs & _ & _ & Ho). split.
  - apply Hs. by vm_compute.
  - apply Ho. by vm_compute.
Defined.

(** X26. The id of every extracted heading is not empty and is made of slug
    code units only ([a-z], [0-9], [_], Hiragana, Katakana, CJK ideographs,
    hyphen): the suffix that tells duplicates apart does not leave that
    alphabet. *)
Theorem heading_id_shape (markdown : jsstring) (h : Heading) :
  h ∈ extractHeadings markdown ->
  id h <> [] /\ Forall (fun c => is_slug_char c = true) (id h).
Proof.
  intros (i & Hi)%list_elem_of_lookup_1.
  rewrite (extractHeadings_ids _ _ _ Hi).
  destruct (slug_of_chars (text h)) as (Hne & Hall).
  unfold deduplicated. destruct (occurrences _ _) as [|n]; [done|].
  split.
  - intros [? _]%app_eq_nil. done.
  - apply Forall_app. split; [done|]. change (js "-") with [0x2D%N].
    apply Forall_cons. split; [done|].
    eapply Forall_impl; [apply toString_digits|]. apply is_digit_slug_char.
Qed.

Lemma heading_id_shape_witness :
  js "intro-3" <> [] /\ Forall (fun c => is_slug_char c = true) (js "intro-3").
Proof.
  apply (heading_id_shape intro_document
           {| level := 2; text := js "Intro"; id := js "intro-3" |}).
  vm_compute. apply list_elem_of_In. simpl. tauto.
Defined.
